(** * Recipe Suggestions: the filtering pipeline of [src/App.tsx]

    A shallow embedding of the search pipeline of the recipe finder: the API
    client, the ingredient extractor, the cook-time estimator, the four
    predicate filters and the search handler [onSearch], followed by the
    properties of the design specification that concern them.

    Conventions of the embedding.
    - A JavaScript string is a [string]: a sequence of code units, here
      restricted to U+0000..U+00FF (one [ascii] per code unit).  On that range
      [toLowerCase] and the white space class of [trim] and [\s] are closed
      and are written out in full below.
    - [null] and [undefined] are [None].
    - A JavaScript [Set] is a duplicate-free list in insertion order.
    - A promise is its outcome: resolved with a value or rejected with a
      message. *)

From Stdlib Require Import ZArith QArith Qround String Ascii List Bool Sorted Lia.
From stdpp Require Import base option list gmap strings pretty.
Import ListNotations.

Local Open Scope string_scope.
Local Open Scope list_scope.

(* String concatenation unfolds on constructors, as list concatenation does. *)
Local Arguments String.append !_ _ / : simpl nomatch.

(** ** JavaScript strings *)

Module JsString.

(** Code units that [String.prototype.trim] strips and that [\s] matches:
    TAB, LF, VT, FF, CR, SPACE and NO-BREAK SPACE. *)
Definition is_ws (c : ascii) : bool :=
  let n := N_of_ascii c in
  (((9 <=? n) && (n <=? 13)) || (n =? 32) || (n =? 160))%N.

(** [toLowerCase] on one code unit: A-Z and the capital letters
    U+00C0..U+00DE (all but the multiplication sign U+00D7) move up by 32. *)
Definition toLowerChar (c : ascii) : ascii :=
  let n := N_of_ascii c in
  if (((65 <=? n) && (n <=? 90))
      || ((192 <=? n) && (n <=? 222) && negb (n =? 215)))%N
  then ascii_of_N (n + 32) else c.

Fixpoint toLowerCase (s : string) : string :=
  match s with
  | EmptyString => EmptyString
  | String c s' => String (toLowerChar c) (toLowerCase s')
  end.

(** A code unit that [toLowerCase] changes. *)
Definition is_upper (c : ascii) : bool :=
  negb (Ascii.eqb (toLowerChar c) c).

Fixpoint has_upper (s : string) : bool :=
  match s with
  | EmptyString => false
  | String c s' => is_upper c || has_upper s'
  end.

Fixpoint trimStart (s : string) : string :=
  match s with
  | EmptyString => EmptyString
  | String c s' => if is_ws c then trimStart s' else s
  end.

Fixpoint trimEnd (s : string) : string :=
  match s with
  | EmptyString => EmptyString
  | String c s' =>
      match trimEnd s' with
      | EmptyString => if is_ws c then EmptyString else String c EmptyString
      | r => String c r
      end
  end.

Definition trim (s : string) : string := trimEnd (trimStart s).

(** [s.includes(t)]: [t] occurs in [s] as a contiguous substring. *)
Fixpoint includes (s t : string) : bool :=
  if String.prefix t s then true
  else match s with
       | EmptyString => false
       | String _ s' => includes s' t
       end.

(** Truthiness of a string: every string but the empty one. *)
Definition truthy (s : string) : bool :=
  match s with EmptyString => false | _ => true end.

(** [s.split(',')]. *)
Fixpoint split_comma (s : string) : list string :=
  match s with
  | EmptyString => [EmptyString]
  | String c s' =>
      if Ascii.eqb c "," then EmptyString :: split_comma s'
      else match split_comma s' with
           | h :: t => String c h :: t
           | [] => [String c EmptyString]
           end
  end.

(** [s.split(/\s+/)]: every maximal run of white space is one separator;
    [prev_ws] tells that the previous code unit belonged to the separator
    being consumed. *)
Fixpoint split_ws_from (prev_ws : bool) (s : string) : list string :=
  match s with
  | EmptyString => [EmptyString]
  | String c s' =>
      if is_ws c then
        if prev_ws then split_ws_from true s'
        else EmptyString :: split_ws_from true s'
      else match split_ws_from false s' with
           | h :: t => String c h :: t
           | [] => [String c EmptyString]
           end
  end.

Definition split_ws (s : string) : list string := split_ws_from false s.

(** [xs.includes(x)] on an array of strings. *)
Definition array_includes (xs : list string) (x : string) : bool :=
  existsb (String.eqb x) xs.

End JsString.
Import JsString.

(** ** Data model *)

Record MealSummary := {
  s_idMeal : string;
  s_strMeal : string;
  s_strMealThumb : string
}.

(** [MealDetails]: the typed fields, and [dyn] for the dynamic keys
    ([strIngredient1..20], [strMeasure1..20]); a key that is missing or
    [null] has no binding. *)
Record MealDetails := {
  idMeal : string;
  strMeal : string;
  strMealThumb : string;
  strCategory : option string;
  strArea : option string;
  strTags : option string;
  strInstructions : option string;
  dyn : gmap string string
}.

Record IngredientLine := { ingredient : string; measure : string }.

Inductive Diet := DietNone | Vegetarian | Vegan | GlutenFree.

Inductive TimeChoice := TimeAny | Under15 | Under30 | Under45 | SixtyPlus.

(** The keys of [MOOD_MAP], and the value of the mood selector. *)
Inductive MoodKey := Comforting | Healthy | Adventurous | Quick.
Inductive MoodChoice := MoodAny | Mood (k : MoodKey).

Record MoodConf := {
  categories : option (list string);
  tagsContains : option (list string)
}.

Definition MOOD_MAP (k : MoodKey) : MoodConf :=
  match k with
  | Comforting =>
      {| categories := Some ["Beef"; "Pasta"; "Pork"; "Chicken"];
         tagsContains := None |}
  | Healthy =>
      {| categories := Some ["Vegetarian"; "Vegan"; "Salad"];
         tagsContains := Some ["Low Fat"; "Healthy"] |}
  | Adventurous =>
      {| categories := Some ["Seafood"; "Lamb"; "Goat"];
         tagsContains := Some ["Spicy"] |}
  | Quick =>
      {| categories := None; tagsContains := Some ["Quick"; "Easy"] |}
  end.

(** ** Ingredient extractor *)

(** The template literals [`strIngredient${i}`] and [`strMeasure${i}`]. *)
Definition ingredientKey (i : nat) : string := "strIngredient" +:+ pretty i.
Definition measureKey (i : nat) : string := "strMeasure" +:+ pretty i.

(** One iteration of the loop of [getIngredients]. *)
Definition getIngredients_step (m : MealDetails) (items : list IngredientLine)
    (i : nat) : list IngredientLine :=
  let ing := dyn m !! ingredientKey i in
  let meas := dyn m !! measureKey i in
  match ing with
  | Some s =>
      if truthy s && truthy (trim s)
      then items ++ [{| ingredient := trim s;
                        measure := trim (default "" meas) |}]
      else items
  | None => items
  end.

Definition getIngredients (m : MealDetails) : list IngredientLine :=
  foldl (getIngredients_step m) [] (seq 1 20).

(** ** Heuristic estimator *)

(** [Math.round] on the non-negative quarter-integers that occur here:
    the nearest integer, halves going up. *)
Definition Math_round (x : Q) : Z := Qfloor (x + (1 # 2)).

Definition instruction_words (m : MealDetails) : nat :=
  let instr := trim (default "" (strInstructions m)) in
  length (List.filter truthy (split_ws instr)).

Definition estimateMinutes (m : MealDetails) : Z :=
  let words := instruction_words m in
  let ingredientsCount := length (getIngredients m) in
  let est :=
    Math_round (inject_Z (Z.of_nat words) * (1 # 4)
                + inject_Z (Z.of_nat ingredientsCount) * 2)%Q in
  Z.max 5 (Z.min est 180).

(** ** Predicate filters *)

Definition lowered_ingredients (m : MealDetails) : list string :=
  map (fun i => toLowerCase (ingredient i)) (getIngredients m).

Definition gluteny : list string :=
  ["flour"; "bread"; "pasta"; "noodles"; "wheat"; "barley"; "bulgur";
   "semolina"].

Definition matchesDiet (m : MealDetails) (diet : Diet) : bool :=
  let tags := toLowerCase (default "" (strTags m)) in
  let category := toLowerCase (default "" (strCategory m)) in
  let ings := lowered_ingredients m in
  match diet with
  | DietNone => true
  | Vegetarian => includes tags "vegetarian" || String.eqb category "vegetarian"
  | Vegan => includes tags "vegan" || String.eqb category "vegan"
  | GlutenFree =>
      negb (existsb (fun i => existsb (fun g => includes i g) gluteny) ings)
  end.

Definition meal_tags (m : MealDetails) : list string :=
  map trim (split_comma (default "" (strTags m))).

Definition matchesMood (m : MealDetails) (mood : MoodChoice) : bool :=
  match mood with
  | MoodAny => true
  | Mood k =>
      let conf := MOOD_MAP k in
      let category := default "" (strCategory m) in
      let tags := meal_tags m in
      let catOk :=
        match categories conf with
        | None => true
        | Some cs => array_includes cs category
        end in
      let tagOk :=
        match tagsContains conf with
        | None => true
        | Some ts => existsb (fun t => existsb (fun x => includes x t) tags) ts
        end in
      catOk || tagOk
  end.

Definition matchesTime (m : MealDetails) (time : TimeChoice) : bool :=
  match time with
  | TimeAny => true
  | Under15 => (estimateMinutes m <=? 15)%Z
  | Under30 => (estimateMinutes m <=? 30)%Z
  | Under45 => (estimateMinutes m <=? 45)%Z
  | SixtyPlus => (60 <=? estimateMinutes m)%Z
  end.

Definition excludeIngredients (m : MealDetails) (excludes : list string)
    : bool :=
  match excludes with
  | [] => true
  | _ =>
      let ings := lowered_ingredients m in
      negb (existsb (fun ex => existsb (fun i => includes i ex) ings) excludes)
  end.

(** ** API client *)

(** The outcome of a promise. *)
Inductive Outcome (A : Type) :=
| Resolved (a : A)
| Rejected (msg : string).
Arguments Resolved {A} a.
Arguments Rejected {A} msg.

(** What [fetch] resolves with: the [ok] flag, and the outcome of
    [res.json()] reduced to the [meals] member of the payload. *)
Record Response (A : Type) := {
  ok : bool;
  json_meals : Outcome (option (list A))
}.
Arguments ok {A} r.
Arguments json_meals {A} r.

(** The remote service, as seen through [fetch] on the two endpoints. *)
Record Network := {
  fetch_filter : string -> Outcome (Response MealSummary);
  fetch_lookup : string -> Outcome (Response MealDetails)
}.

Module API.

Definition filterByIngredient (net : Network) (ing : string)
      : Outcome (list MealSummary) :=
    match fetch_filter net ing with
    | Rejected msg => Rejected msg
    | Resolved res =>
        if negb (ok res) then Rejected "Network error fetching meals"
        else match json_meals res with
             | Rejected msg => Rejected msg
             | Resolved data => Resolved (default [] data)
             end
    end.

Definition detailsById (net : Network) (id : string)
      : Outcome (option MealDetails) :=
    match fetch_lookup net id with
    | Rejected msg => Rejected msg
    | Resolved res =>
        if negb (ok res) then Resolved None
        else match json_meals res with
             | Rejected msg => Rejected msg
             | Resolved data => Resolved (mjoin (head <$> data))
             end
    end.

End API.

(** ** Search orchestrator *)

(** [Promise.all]: the values in order when every promise resolves, else a
    rejection.  Which rejection wins is a matter of timing in the browser;
    the first one in list order is taken here, and nothing below depends on
    the choice. *)
Fixpoint Promise_all {A : Type} (ps : list (Outcome A)) : Outcome (list A) :=
  match ps with
  | [] => Resolved []
  | Rejected msg :: _ => Rejected msg
  | Resolved a :: ps' =>
      match Promise_all ps' with
      | Resolved l => Resolved (a :: l)
      | Rejected msg => Rejected msg
      end
  end.

(** [new Set(xs)]: first occurrences, in order. *)
Definition Set_add (acc : list string) (x : string) : list string :=
  if array_includes acc x then acc else acc ++ [x].

Definition new_Set (xs : list string) : list string := foldl Set_add [] xs.

(** [s.has(id)]. *)
Definition Set_has (s : list string) (id : string) : bool :=
  array_includes s id.

(** The body of the intersection loop: [new Set(s)] on the first round,
    [new Set([...intersection].filter(id => s.has(id)))] afterwards. *)
Definition intersect_step (intersection : option (list string))
    (s : list string) : option (list string) :=
  match intersection with
  | None => Some (new_Set s)
  | Some acc => Some (new_Set (List.filter (fun id => Set_has s id) acc))
  end.

Definition intersect_all (idSets : list (list string)) : option (list string) :=
  foldl intersect_step None idSets.

(** The two-set case of the loop, as an operation on sets of IDs. *)
Definition intersect2 (a b : list string) : list string :=
  default [] (intersect_all [a; b]).

Definition idSets_of (lists : list (list MealSummary)) : list (list string) :=
  map (fun l => new_Set (map s_idMeal l)) lists.

Definition candidate_ids (lists : list (list MealSummary)) : list string :=
  default [] (intersect_all (idSets_of lists)).

(** The form fields and the component state touched by [onSearch]. *)
Record Form := {
  ingredientsInput : string;
  excludeInput : string;
  time : TimeChoice;
  mood : MoodChoice;
  diet : Diet
}.

Record UiState := {
  loading : bool;
  error : option string;
  meals : list MealDetails;
  expanded : gmap string bool
}.

(** What [onSearch] does, in program order: state updates and requests. *)
Inductive Event :=
| SetLoading (b : bool)
| SetError (e : option string)
| SetMeals (ms : list MealDetails)
| SetExpanded (x : gmap string bool)
| FilterQuery (ing : string)
| DetailQuery (id : string).

Definition parse_list (input : string) : list string :=
  List.filter truthy (map (fun s => toLowerCase (trim s)) (split_comma input)).

Definition parsedIngredients (f : Form) : list string :=
  parse_list (ingredientsInput f).

Definition parsedExcludes (f : Form) : list string :=
  parse_list (excludeInput f).

(** [err?.message || 'Something went wrong']. *)
Definition error_text (msg : string) : string :=
  if truthy msg then msg else "Something went wrong".

Definition passes_filters (f : Form) (m : MealDetails) : bool :=
  matchesTime m (time f) && matchesMood m (mood f)
  && matchesDiet m (diet f) && excludeIngredients m (parsedExcludes f).

Definition selected_ids (ids : list string) : list string := take 24 ids.

(** The [try] block from the detail fan-out on. *)
Definition search_details (net : Network) (f : Form) (ids : list string)
    : list Event :=
  let selected := selected_ids ids in
  map DetailQuery selected ++
  match Promise_all (map (API.detailsById net) selected) with
  | Rejected msg => [SetError (Some (error_text msg))]
  | Resolved fetched =>
      let details := omap id fetched in
      let filtered := List.filter (passes_filters f) details in
      [SetMeals filtered]
  end.

(** The [try] block from the candidate queries on. *)
Definition search_candidates (net : Network) (f : Form) : list Event :=
  map FilterQuery (parsedIngredients f) ++
  match Promise_all (map (API.filterByIngredient net) (parsedIngredients f)) with
  | Rejected msg => [SetError (Some (error_text msg))]
  | Resolved lists =>
      let ids := candidate_ids lists in
      match ids with
      | [] => [SetMeals []; SetLoading false]
      | _ => search_details net f ids
      end
  end.

Definition onSearch (net : Network) (f : Form) : list Event :=
  [SetLoading true; SetError None; SetMeals []; SetExpanded ∅]
  ++ match parsedIngredients f with
     | [] => [SetError (Some "Enter at least one ingredient."); SetLoading false]
     | _ => search_candidates net f
     end
  ++ [SetLoading false].

(** The component state after an update, once it is committed.  React
    queues the updates made in one synchronous stretch of the handler and
    commits them when the handler yields; [run] over the whole trace is the
    state once the handler has returned, and [run] over a prefix follows the
    program order of the calls. *)
Definition apply_event (st : UiState) (e : Event) : UiState :=
  match e with
  | SetLoading b =>
      {| loading := b; error := error st; meals := meals st;
         expanded := expanded st |}
  | SetError x =>
      {| loading := loading st; error := x; meals := meals st;
         expanded := expanded st |}
  | SetMeals ms =>
      {| loading := loading st; error := error st; meals := ms;
         expanded := expanded st |}
  | SetExpanded x =>
      {| loading := loading st; error := error st; meals := meals st;
         expanded := x |}
  | FilterQuery _ | DetailQuery _ => st
  end.

Definition run (st : UiState) (evs : list Event) : UiState :=
  foldl apply_event st evs.

(** The state once the handler has returned. *)
Definition after_search (net : Network) (f : Form) (st : UiState) : UiState :=
  run st (onSearch net f).

Definition filter_queries (evs : list Event) : list string :=
  omap (fun e => match e with FilterQuery x => Some x | _ => None end) evs.

Definition is_request (e : Event) : bool :=
  match e with FilterQuery _ | DetailQuery _ => true | _ => false end.

(** ** Vocabulary of the specification *)

(** [t] occurs in [s] as a contiguous substring. *)
Definition is_substring (t s : string) : Prop :=
  exists p q, s = p +:+ t +:+ q.

(** The number of white-space-delimited non-empty tokens of a text, counted
    directly: a token starts at every code unit that is not white space and
    follows white space or the start of the text. *)
Fixpoint token_count_from (prev_ws : bool) (s : string) : nat :=
  match s with
  | EmptyString => 0
  | String c s' =>
      if is_ws c then token_count_from true s'
      else (if prev_ws then 1 else 0) + token_count_from false s'
  end.

Definition token_count (s : string) : nat := token_count_from true s.

(** [round(words * 0.25 + n * 2)] clamped to the closed range [5, 180]. *)
Definition clamped_estimate (words n : nat) : Z :=
  Z.max 5
    (Z.min (Math_round (inject_Z (Z.of_nat words) * (1 # 4)
                        + inject_Z (Z.of_nat n) * 2)%Q) 180).

(** Slot [i] of a meal holds an ingredient that is not blank once trimmed. *)
Definition nonblank_slot (m : MealDetails) (i : nat) : bool :=
  truthy (trim (default "" (dyn m !! ingredientKey i))).

(** The pair read from slot [i]. *)
Definition slot_line (m : MealDetails) (i : nat) : IngredientLine :=
  {| ingredient := trim (default "" (dyn m !! ingredientKey i));
     measure := trim (default "" (dyn m !! measureKey i)) |}.

(** The category set and the tag substrings configured for a mood; a member
    that is not configured is the empty collection. *)
Definition mood_categories (k : MoodKey) : list string :=
  default [] (categories (MOOD_MAP k)).

Definition mood_tag_substrings (k : MoodKey) : list string :=
  default [] (tagsContains (MOOD_MAP k)).

(** The mood policy of the specification: the category is in the configured
    set, or some tag of the meal contains a configured substring. *)
Definition mood_policy (m : MealDetails) (k : MoodKey) : Prop :=
  In (default "" (strCategory m)) (mood_categories k)
  \/ exists tag t, In tag (meal_tags m) /\ In t (mood_tag_substrings k)
                   /\ is_substring t tag.

(** The updates with which [onSearch] begins. *)
Definition clearing : list Event :=
  [SetLoading true; SetError None; SetMeals []; SetExpanded ∅].

(** A state at rest with nothing expanded. *)
Definition settled (e : option string) (ms : list MealDetails) : UiState :=
  {| loading := false; error := e; meals := ms; expanded := ∅ |}.

(** The details a lookup delivers, if any. *)
Definition delivered (net : Network) (id : string) : option MealDetails :=
  match API.detailsById net id with
  | Resolved r => r
  | Rejected _ => None
  end.

(** ** Sample data *)

Definition meal_of (id : string) (cat tags instr : option string)
    (slots : list (string * string)) : MealDetails :=
  {| idMeal := id; strMeal := "Sample"; strMealThumb := "";
     strCategory := cat; strArea := None; strTags := tags;
     strInstructions := instr;
     dyn := list_to_map slots |}.

Definition chicken_peanuts : MealDetails :=
  meal_of "1" (Some "Chicken") None None
    [("strIngredient1", "Chicken"); ("strMeasure1", "1 whole");
     ("strIngredient2", "Peanuts"); ("strMeasure2", "1 cup")].

Definition wheat_loaf (cat tags : option string) : MealDetails :=
  meal_of "2" cat tags None
    [("strIngredient1", "Water"); ("strIngredient2", "Wheat Flour")].

Definition plain_dessert : MealDetails :=
  meal_of "3" (Some "Dessert") None (Some "Mix and bake.")
    [("strIngredient1", "Sugar")].

Definition sparse_meal : MealDetails :=
  meal_of "4" None None (Some "  Stir   well  ")
    [("strIngredient1", " Rice "); ("strIngredient2", "   ");
     ("strIngredient3", ""); ("strIngredient5", "Salt");
     ("strMeasure5", " 1 tsp "); ("strIngredient21", "Ghost")].

Definition long_meal : MealDetails :=
  meal_of "5" None None (Some "Chop the onions then fry them slowly until golden")
    [("strIngredient1", "Onion"); ("strIngredient2", "Oil")].

Definition form_of (ings excl : string) : Form :=
  {| ingredientsInput := ings; excludeInput := excl;
     time := TimeAny; mood := MoodAny; diet := DietNone |}.

Definition idle : UiState :=
  {| loading := false; error := None; meals := [chicken_peanuts];
     expanded := {["1" := true]} |}.

Definition summary (id : string) : MealSummary :=
  {| s_idMeal := id; s_strMeal := "Sample"; s_strMealThumb := "" |}.

Definition ok_response {A : Type} (l : list A) : Outcome (Response A) :=
  Resolved {| ok := true; json_meals := Resolved (Some l) |}.

(** A service on which every candidate query lists the meals 1 and 3, the
    lookup of 1 answers and the lookup of 3 is rejected. *)
Definition flaky_net : Network :=
  {| fetch_filter := fun _ => ok_response [summary "1"; summary "3"];
     fetch_lookup := fun id =>
       if String.eqb id "1" then ok_response [chicken_peanuts]
       else Rejected "Failed to fetch" |}.

(** A service that answers every request; the lookup of 3 finds nothing. *)
Definition steady_net : Network :=
  {| fetch_filter := fun _ => ok_response [summary "1"; summary "3"; summary "1"];
     fetch_lookup := fun id =>
       if String.eqb id "1" then ok_response [chicken_peanuts]
       else Resolved {| ok := true; json_meals := Resolved None |} |}.

(** A service whose candidate queries fail with an HTTP error status. *)
Definition down_net : Network :=
  {| fetch_filter := fun _ =>
       Resolved {| ok := false; json_meals := Rejected "" |};
     fetch_lookup := fun _ => Rejected "Failed to fetch" |}.

(** ** Presentation *)

Definition detail_queries (evs : list Event) : list string :=
  omap (fun e => match e with DetailQuery x => Some x | _ => None end) evs.

(** [expanded] is a plain object: a key that it does not own is looked up
    on [Object.prototype].  [inherited id] tells whether that lookup finds a
    truthy value; [Object_prototype_has] is the standard prototype, all of
    whose members are functions or objects. *)
Definition Object_prototype_keys : list string :=
  ["constructor"; "hasOwnProperty"; "isPrototypeOf"; "propertyIsEnumerable";
   "toLocaleString"; "toString"; "valueOf"; "__proto__"; "__defineGetter__";
   "__defineSetter__"; "__lookupGetter__"; "__lookupSetter__"].

Definition Object_prototype_has (id : string) : bool :=
  array_includes Object_prototype_keys id.

(** [!!expanded[m.idMeal]]. *)
Definition isOpen (inherited : string -> bool) (s : gmap string bool)
    (id : string) : bool :=
  match s !! id with
  | Some b => b
  | None => inherited id
  end.

(** The click handler of a card:
    [setExpanded((s) => ({ ...s, [m.idMeal]: !s[m.idMeal] }))]. *)
Definition toggle_expanded (inherited : string -> bool) (id : string)
    (s : gmap string bool) : gmap string bool :=
  <[id := negb (isOpen inherited s id)]> s.

Definition onToggle (inherited : string -> bool) (id : string) (st : UiState)
    : UiState :=
  {| loading := loading st; error := error st; meals := meals st;
     expanded := toggle_expanded inherited id (expanded st) |}.

(** [error && <div>...</div>]: the banner shows for a non-empty message. *)
Definition shows_error (st : UiState) : bool :=
  match error st with
  | Some e => truthy e
  | None => false
  end.

(** [!loading && meals.length === 0 && !error]: the "No results yet" line. *)
Definition shows_empty_hint (st : UiState) : bool :=
  negb (loading st) && (length (meals st) =? 0)%nat && negb (shows_error st).

(** The submit button: [disabled={loading}]. *)
Definition submit_disabled (st : UiState) : bool := loading st.

(** The tag chips of a card:
    [(m.strTags ?? '').split(',').filter(Boolean).slice(0, 3)]. *)
Definition card_tags (m : MealDetails) : list string :=
  take 3 (List.filter truthy (split_comma (default "" (strTags m)))).

(** ** Further vocabulary *)

(** The code units of a string. *)
Definition code_units (s : string) : list ascii := list_ascii_of_string s.

(** A form with another ingredient input. *)
Definition with_ingredients (f : Form) (input : string) : Form :=
  {| ingredientsInput := input; excludeInput := excludeInput f;
     time := time f; mood := mood f; diet := diet f |}.

(** The number of instruction words and of ingredients of a meal. *)
Definition words_of (m : MealDetails) : nat :=
  token_count (default "" (strInstructions m)).

Definition ingredient_count (m : MealDetails) : nat :=
  length (getIngredients m).

(** A meal that lists every slot from 1 to 20. *)
Definition full_meal : MealDetails :=
  meal_of "6" (Some "Vegetarian") (Some "Spicy, Quick ,,Easy,Vegan")
    (Some "Boil.")
    (map (fun i => (ingredientKey i, " Item " +:+ pretty i)) (seq 0 23)).

(** A service with two candidate lists in different orders and lookups that
    answer with an HTTP error status. *)
Definition ordered_net : Network :=
  {| fetch_filter := fun ing =>
       if String.eqb ing "rice"
       then ok_response [summary "3"; summary "1"; summary "2"]
       else ok_response [summary "1"; summary "2"; summary "3"; summary "1"];
     fetch_lookup := fun _ =>
       Resolved {| ok := false; json_meals := Rejected "" |} |}.

(** * Properties *)

(** ** Strings *)

Lemma prefix_iff (t s : string) :
  String.prefix t s = true <-> exists q, s = t +:+ q.
Proof.
  revert s; induction t as [|c t IH]; intros s.
  - destruct s; simpl; split; eauto.
  - destruct s as [|d s]; simpl.
    + split; [discriminate | intros [q Hq]; discriminate].
    + destruct (ascii_dec c d) as [->|Hne].
      * rewrite IH. split; intros [q Hq]; exists q; congruence.
      * split; [discriminate | intros [q Hq]; congruence].
Qed.

Lemma includes_iff (s t : string) :
  includes s t = true <-> is_substring t s.
Proof.
  unfold is_substring. induction s as [|c s IH]; cbn [includes].
  - destruct (String.prefix t "") eqn:Hp.
    + apply prefix_iff in Hp as [q Hq]. split; [|reflexivity].
      intros _. exists "", q. exact Hq.
    + split; [discriminate|]. intros (p & q & Hq).
      destruct p; [|discriminate]. simpl in Hq.
      assert (String.prefix t "" = true) by (apply prefix_iff; eauto).
      congruence.
  - destruct (String.prefix t (String c s)) eqn:Hp.
    + apply prefix_iff in Hp as [q Hq]. split; [|reflexivity].
      intros _. exists "", q. exact Hq.
    + rewrite IH. split.
      * intros (p & q & ->). exists (String c p), q. reflexivity.
      * intros (p & q & Hq). destruct p as [|d p]; simpl in Hq.
        -- assert (String.prefix t (String c s) = true)
             by (apply prefix_iff; eauto).
           congruence.
        -- injection Hq as _ ->. eauto.
Qed.

Lemma includes_false_iff (s t : string) :
  includes s t = false <-> ~ is_substring t s.
Proof.
  rewrite <- includes_iff. destruct (includes s t); split; congruence.
Qed.

Lemma toLowerChar_idem (c : ascii) : toLowerChar (toLowerChar c) = toLowerChar c.
Proof.
  destruct c as [[] [] [] [] [] [] [] []]; vm_compute; reflexivity.
Qed.

Lemma toLowerCase_app (a b : string) :
  toLowerCase (a +:+ b) = toLowerCase a +:+ toLowerCase b.
Proof. induction a as [|c a IH]; simpl; [reflexivity | now rewrite IH]. Qed.

Lemma has_upper_app (a b : string) :
  has_upper (a +:+ b) = has_upper a || has_upper b.
Proof.
  induction a as [|c a IH]; simpl; [reflexivity|].
  now rewrite IH, orb_assoc.
Qed.

Lemma has_upper_lowered (s : string) : has_upper (toLowerCase s) = false.
Proof.
  induction s as [|c s IH]; simpl; [reflexivity|].
  rewrite IH, orb_false_r. unfold is_upper.
  rewrite toLowerChar_idem, Ascii.eqb_refl. reflexivity.
Qed.

Lemma has_upper_false_iff (s : string) :
  has_upper s = false <-> toLowerCase s = s.
Proof.
  induction s as [|c s IH]; simpl; [tauto|].
  rewrite orb_false_iff, IH. unfold is_upper.
  rewrite negb_false_iff, Ascii.eqb_eq.
  split; [intros [-> ->]; reflexivity | intros H; injection H; auto].
Qed.

(** A term with a code unit that [toLowerCase] would change occurs in no
    lowercased string. *)
Lemma upper_not_in_lowered (ex s : string) :
  has_upper ex = true -> includes (toLowerCase s) ex = false.
Proof.
  intros Hup. apply includes_false_iff. intros (p & q & Heq).
  pose proof (has_upper_lowered s) as Hlow.
  rewrite Heq, !has_upper_app, Hup in Hlow.
  rewrite orb_true_r in Hlow. discriminate.
Qed.

Lemma truthy_trim (s : string) : truthy s && truthy (trim s) = truthy (trim s).
Proof. destruct s; reflexivity. Qed.

Lemma truthy_iff (s : string) : truthy s = true <-> s <> "".
Proof. destruct s; simpl; split; congruence. Qed.

Lemma split_ws_from_cons (p : bool) (s : string) :
  exists h t, split_ws_from p s = h :: t.
Proof.
  revert p; induction s as [|c s IH]; intros p; simpl; eauto.
  destruct (is_ws c).
  - destruct p; eauto.
  - destruct (IH false) as (h & t & ->). eauto.
Qed.

Lemma split_ws_count (s : string) :
  (forall p, length (List.filter truthy (split_ws_from p s))
             = token_count_from true s)
  /\ length (List.filter truthy (tail (split_ws_from false s)))
     = token_count_from false s.
Proof.
  induction s as [|c s [IH1 IH2]]; simpl; [split; [intros []|]; reflexivity|].
  destruct (is_ws c) eqn:Hc.
  - split; [intros []|]; simpl; apply IH1.
  - destruct (split_ws_from_cons false s) as (h & t & Hs).
    rewrite Hs in *. simpl in IH2. simpl. split; [intros _|]; lia.
Qed.

Lemma token_count_trimStart (s : string) :
  token_count_from true (trimStart s) = token_count_from true s.
Proof.
  induction s as [|c s IH]; simpl; [reflexivity|].
  destruct (is_ws c) eqn:Hc; [exact IH|]. simpl. now rewrite Hc.
Qed.

Lemma token_count_trimEnd (s : string) (p : bool) :
  token_count_from p (trimEnd s) = token_count_from p s.
Proof.
  revert p; induction s as [|c s IH]; intros p; simpl; [reflexivity|].
  destruct (trimEnd s) as [|d r] eqn:Hr.
  - pose proof (IH true) as Ht. pose proof (IH false) as Hf.
    simpl in Ht, Hf.
    destruct (is_ws c) eqn:Hc; simpl; [congruence|].
    rewrite Hc. congruence.
  - change (token_count_from p (String c (String d r))
            = token_count_from p (String c s)).
    cbn [token_count_from]. destruct (is_ws c).
    + rewrite <- (IH true). reflexivity.
    + rewrite <- (IH false). reflexivity.
Qed.

(** The word count of the estimator is the token count of the text. *)
Lemma words_token_count (s : string) :
  length (List.filter truthy (split_ws (trim s))) = token_count s.
Proof.
  unfold split_ws, trim, token_count.
  rewrite (proj1 (split_ws_count _)), token_count_trimEnd.
  apply token_count_trimStart.
Qed.

(** ** Ingredient extractor *)

Lemma getIngredients_step_line (m : MealDetails) (items : list IngredientLine)
    (i : nat) :
  getIngredients_step m items i
  = items ++ (if nonblank_slot m i then [slot_line m i] else []).
Proof.
  unfold getIngredients_step, nonblank_slot, slot_line.
  destruct (dyn m !! ingredientKey i) as [s|]; simpl.
  - rewrite truthy_trim. destruct (truthy (trim s)); [reflexivity|].
    now rewrite app_nil_r.
  - now rewrite app_nil_r.
Qed.

Lemma getIngredients_loop (m : MealDetails) (idxs : list nat)
    (items : list IngredientLine) :
  foldl (getIngredients_step m) items idxs
  = items ++ map (slot_line m) (List.filter (nonblank_slot m) idxs).
Proof.
  revert items; induction idxs as [|i idxs IH]; intros items; simpl.
  - now rewrite app_nil_r.
  - rewrite IH, getIngredients_step_line.
    destruct (nonblank_slot m i); simpl.
    + now rewrite <- app_assoc.
    + now rewrite app_nil_r.
Qed.

Lemma getIngredients_eq (m : MealDetails) :
  getIngredients m
  = map (slot_line m) (List.filter (nonblank_slot m) (seq 1 20)).
Proof. unfold getIngredients. now rewrite getIngredients_loop. Qed.

Lemma seq_sorted (a n : nat) : StronglySorted lt (seq a n).
Proof.
  revert a; induction n as [|n IH]; intros a; simpl; constructor.
  - apply IH.
  - apply List.Forall_forall. intros x Hx. apply in_seq in Hx. lia.
Qed.

Lemma filter_sorted {A : Type} (R : A -> A -> Prop) (f : A -> bool)
    (l : list A) :
  StronglySorted R l -> StronglySorted R (List.filter f l).
Proof.
  induction 1 as [|x l Hs IH Hall]; simpl; [constructor|].
  destruct (f x); [|exact IH]. constructor; [exact IH|].
  rewrite List.Forall_forall in *. intros y Hy.
  apply filter_In in Hy as [Hy _]. auto.
Qed.

Lemma nonblank_slot_iff (m : MealDetails) (i : nat) :
  nonblank_slot m i = true
  <-> exists s, dyn m !! ingredientKey i = Some s /\ trim s <> "".
Proof.
  unfold nonblank_slot. rewrite truthy_iff.
  destruct (dyn m !! ingredientKey i) as [s|]; simpl.
  - split; [eauto | intros (s' & [= <-] & H); exact H].
  - split; [intros H; now contradiction H | intros (s' & [=] & _)].
Qed.

(** C7. [getIngredients] reads the slots 1 to 20 in ascending order and
    returns exactly those whose ingredient is not blank once trimmed, each
    as the pair of the (trimmed) ingredient and measure of that slot; a
    missing measure gives the empty string, and no returned ingredient is
    blank. *)
Theorem getIngredients_slots (m : MealDetails) :
  let slots := List.filter (nonblank_slot m) (seq 1 20) in
  getIngredients m = map (slot_line m) slots
  /\ (forall i, In i slots
        <-> (1 <= i <= 20)%nat
            /\ exists s, dyn m !! ingredientKey i = Some s /\ trim s <> "")
  /\ StronglySorted lt slots
  /\ (forall l, In l (getIngredients m) -> ingredient l <> "")
  /\ (forall i, dyn m !! measureKey i = None -> measure (slot_line m i) = "").
Proof.
  intros slots. split; [apply getIngredients_eq|]. split; [|split; [|split]].
  - intros i. unfold slots. rewrite filter_In, in_seq, nonblank_slot_iff.
    intuition lia.
  - apply filter_sorted, seq_sorted.
  - intros l. rewrite getIngredients_eq, in_map_iff.
    intros (i & <- & Hi). apply filter_In in Hi as [_ Hi].
    unfold nonblank_slot in Hi. now apply truthy_iff in Hi.
  - intros i Hi. unfold slot_line. simpl. now rewrite Hi.
Qed.

Lemma getIngredients_slots_witness :
  getIngredients sparse_meal
  = [{| ingredient := "Rice"; measure := "" |};
     {| ingredient := "Salt"; measure := "1 tsp" |}]
  /\ In 5%nat (List.filter (nonblank_slot sparse_meal) (seq 1 20))
  /\ measure (slot_line sparse_meal 1) = "".
Proof.
  destruct (getIngredients_slots sparse_meal) as (Heq & Hin & _ & _ & Hmeas).
  split; [rewrite Heq; reflexivity|]. split.
  - apply Hin. split; [lia|]. exists "Salt". split; [reflexivity | discriminate].
  - apply Hmeas. reflexivity.
Defined.

(** ** Heuristic estimator *)

Lemma Math_round_quarters (w n : Z) :
  Math_round (inject_Z w * (1 # 4) + inject_Z n * 2)%Q = ((w + 8 * n + 2) / 4)%Z.
Proof.
  unfold Math_round.
  rewrite (Qfloor_comp _ ((w + 8 * n + 2) # 4)%Q).
  - reflexivity.
  - unfold Qeq, Qplus, Qmult, inject_Z. simpl. lia.
Qed.

Lemma clamped_estimate_int (w n : nat) :
  clamped_estimate w n
  = Z.max 5 (Z.min ((Z.of_nat w + 8 * Z.of_nat n + 2) / 4) 180).
Proof. unfold clamped_estimate. now rewrite Math_round_quarters. Qed.

Lemma clamped_estimate_mono (w w' n n' : nat) :
  (w <= w')%nat -> (n <= n')%nat ->
  (clamped_estimate w n <= clamped_estimate w' n')%Z.
Proof.
  intros Hw Hn. rewrite !clamped_estimate_int.
  assert ((Z.of_nat w + 8 * Z.of_nat n + 2) / 4
          <= (Z.of_nat w' + 8 * Z.of_nat n' + 2) / 4)%Z
    by (apply Z.div_le_mono; lia).
  lia.
Qed.

Lemma estimateMinutes_eq (m : MealDetails) :
  estimateMinutes m
  = clamped_estimate (token_count (default "" (strInstructions m)))
      (length (getIngredients m)).
Proof.
  unfold estimateMinutes, clamped_estimate, instruction_words.
  now rewrite words_token_count.
Qed.

Lemma estimateMinutes_range (m : MealDetails) :
  (5 <= estimateMinutes m <= 180)%Z.
Proof. unfold estimateMinutes. lia. Qed.

(** C2. [estimateMinutes] is [round(words * 0.25 + n * 2)] clamped to
    [5, 180], with [words] the number of white-space-delimited non-empty
    tokens of the instructions (none when they are absent) and [n] the number
    of extracted ingredients; the rounding is the integer quotient
    [(words + 8 n + 2) / 4]; the result lies in [5, 180] and does not decrease
    when [words] or [n] grows. *)
Theorem estimateMinutes_clamped_round :
  (forall m,
     estimateMinutes m
     = clamped_estimate (token_count (default "" (strInstructions m)))
         (length (getIngredients m)))
  /\ (forall w n,
        clamped_estimate w n
        = Z.max 5 (Z.min ((Z.of_nat w + 8 * Z.of_nat n + 2) / 4) 180))
  /\ (forall m, (5 <= estimateMinutes m <= 180)%Z)
  /\ (forall w w' n n', (w <= w')%nat -> (n <= n')%nat ->
        (clamped_estimate w n <= clamped_estimate w' n')%Z)
  /\ (forall m m',
        (token_count (default "" (strInstructions m))
         <= token_count (default "" (strInstructions m')))%nat ->
        (length (getIngredients m) <= length (getIngredients m'))%nat ->
        (estimateMinutes m <= estimateMinutes m')%Z).
Proof.
  split; [exact estimateMinutes_eq|].
  split; [exact clamped_estimate_int|].
  split; [exact estimateMinutes_range|].
  split; [exact clamped_estimate_mono|].
  intros m m' Hw Hn. rewrite !estimateMinutes_eq.
  now apply clamped_estimate_mono.
Qed.

Lemma estimateMinutes_clamped_round_witness :
  estimateMinutes sparse_meal = 5%Z
  /\ estimateMinutes long_meal = 6%Z
  /\ (clamped_estimate 9 2 <= clamped_estimate 700 20)%Z
  /\ (estimateMinutes sparse_meal <= estimateMinutes long_meal)%Z.
Proof.
  destruct estimateMinutes_clamped_round as (Heq & _ & _ & Hmono & Hmeal).
  split; [rewrite Heq; vm_compute; reflexivity|].
  split; [rewrite Heq; vm_compute; reflexivity|].
  split.
  - apply Hmono; lia.
  - apply Hmeal; vm_compute; lia.
Defined.

(** ** Predicate filters *)

Lemma array_includes_In (xs : list string) (x : string) :
  array_includes xs x = true <-> In x xs.
Proof.
  unfold array_includes. rewrite existsb_exists. split.
  - intros (y & Hy & Heq). apply String.eqb_eq in Heq. now subst.
  - intros Hx. exists x. split; [exact Hx | apply String.eqb_refl].
Qed.

(** Some string of [hay] contains some string of [needles]. *)
Lemma some_includes_iff (needles hay : list string) :
  existsb (fun t => existsb (fun x => includes x t) hay) needles = true
  <-> exists x t, In x hay /\ In t needles /\ is_substring t x.
Proof.
  rewrite existsb_exists. split.
  - intros (t & Ht & Hex). apply existsb_exists in Hex as (x & Hx & Hinc).
    apply includes_iff in Hinc. eauto.
  - intros (x & t & Hx & Ht & Hsub). exists t. split; [exact Ht|].
    apply existsb_exists. exists x. split; [exact Hx|].
    now apply includes_iff.
Qed.

Lemma some_includes_flip (xs ys : list string) :
  existsb (fun i => existsb (fun g => includes i g) ys) xs
  = existsb (fun g => existsb (fun i => includes i g) xs) ys.
Proof.
  apply eq_true_iff_eq. rewrite !existsb_exists. split.
  - intros (i & Hi & Hex). apply existsb_exists in Hex as (g & Hg & Hinc).
    exists g. split; [exact Hg|]. apply existsb_exists. eauto.
  - intros (g & Hg & Hex). apply existsb_exists in Hex as (i & Hi & Hinc).
    exists i. split; [exact Hi|]. apply existsb_exists. eauto.
Qed.

Lemma lowered_ingredients_In (m : MealDetails) (x : string) :
  In x (lowered_ingredients m)
  <-> exists i, In i (getIngredients m) /\ x = toLowerCase (ingredient i).
Proof.
  unfold lowered_ingredients. rewrite in_map_iff.
  split; intros (i & H1 & H2); exists i; intuition congruence.
Qed.

(** No string of [needles] occurs in a lowercased ingredient name. *)
Lemma none_in_ingredients (m : MealDetails) (needles : list string) :
  negb (existsb (fun t => existsb (fun x => includes x t)
                             (lowered_ingredients m)) needles) = true
  <-> forall t i, In t needles -> In i (getIngredients m) ->
        ~ is_substring t (toLowerCase (ingredient i)).
Proof.
  rewrite negb_true_iff, <- not_true_iff_false, some_includes_iff. split.
  - intros Hno t i Ht Hi Hsub. apply Hno.
    exists (toLowerCase (ingredient i)), t. split; [|tauto].
    apply lowered_ingredients_In. eauto.
  - intros Hall (x & t & Hx & Ht & Hsub).
    apply lowered_ingredients_In in Hx as (i & Hi & ->).
    exact (Hall t i Ht Hi Hsub).
Qed.

Lemma matchesDiet_gluten_iff (m : MealDetails) :
  matchesDiet m GlutenFree = true
  <-> forall g i, In g gluteny -> In i (getIngredients m) ->
        ~ is_substring g (toLowerCase (ingredient i)).
Proof.
  unfold matchesDiet. cbv zeta. rewrite some_includes_flip.
  apply none_in_ingredients.
Qed.

(** The exclusion filter compares the terms as they are given. *)
Lemma excludeIngredients_iff (m : MealDetails) (excludes : list string) :
  excludeIngredients m excludes = true
  <-> forall ex i, In ex excludes -> In i (getIngredients m) ->
        ~ is_substring ex (toLowerCase (ingredient i)).
Proof.
  destruct excludes as [|e excludes].
  - simpl. split; [intros _ ex i [] | reflexivity].
  - unfold excludeIngredients. apply none_in_ingredients.
Qed.

(** C5. With diet [Gluten-Free], [matchesDiet] accepts a meal exactly when no
    lowercased extracted ingredient name contains an entry of the list flour,
    bread, pasta, noodles, wheat, barley, bulgur, semolina; so a meal with an
    ingredient whose name contains "wheat" in any case, such as "Wheat Flour",
    is rejected whatever its category and tags. *)
Theorem matchesDiet_gluten_free :
  gluteny = ["flour"; "bread"; "pasta"; "noodles"; "wheat"; "barley";
             "bulgur"; "semolina"]
  /\ (forall m,
        matchesDiet m GlutenFree = true
        <-> forall g i, In g gluteny -> In i (getIngredients m) ->
              ~ is_substring g (toLowerCase (ingredient i)))
  /\ (forall m i,
        In i (getIngredients m) ->
        is_substring "wheat" (toLowerCase (ingredient i)) ->
        matchesDiet m GlutenFree = false)
  /\ (forall cat tags,
        In "Wheat Flour" (map ingredient (getIngredients (wheat_loaf cat tags)))
        /\ matchesDiet (wheat_loaf cat tags) GlutenFree = false).
Proof.
  split; [reflexivity|]. split; [exact matchesDiet_gluten_iff|]. split.
  - intros m i Hi Hsub. apply not_true_iff_false.
    rewrite matchesDiet_gluten_iff. intros Hall.
    apply (Hall "wheat" i); [|exact Hi | exact Hsub].
    unfold gluteny. simpl. tauto.
  - intros cat tags. split; vm_compute; tauto.
Qed.

Lemma matchesDiet_gluten_free_witness :
  matchesDiet (wheat_loaf (Some "Vegetarian") (Some "Vegan,Healthy")) GlutenFree
  = false
  /\ matchesDiet chicken_peanuts GlutenFree = true.
Proof.
  destruct matchesDiet_gluten_free as (_ & Hiff & Hwheat & _). split.
  - apply (Hwheat _ {| ingredient := "Wheat Flour"; measure := "" |}).
    + vm_compute. tauto.
    + apply includes_iff. vm_compute. reflexivity.
  - apply Hiff. intros g i Hg Hi. apply includes_false_iff.
    vm_compute in Hi. unfold gluteny in Hg. simpl in Hg.
    repeat (destruct Hi as [<-|Hi]; [
      repeat (destruct Hg as [<-|Hg]; [vm_compute; reflexivity|]);
      contradiction |]).
    contradiction.
Defined.

(** C6, as stated, fails: the terms are not lowercased by the filter, so
    the term "Peanut" excludes nothing although its lowercase form occurs in
    "peanuts". *)
Lemma excludeIngredients_not_case_insensitive :
  ~ (forall m excludes,
       excludeIngredients m excludes = true
       <-> excludes = []
           \/ forall ex i, In ex excludes -> In i (getIngredients m) ->
                ~ is_substring (toLowerCase ex) (toLowerCase (ingredient i))).
Proof.
  intros Hclaim.
  destruct (Hclaim chicken_peanuts ["Peanut"]) as [Hkeep _].
  destruct (Hkeep eq_refl) as [Hnil | Hnone]; [discriminate|].
  apply (Hnone "Peanut" {| ingredient := "Peanuts"; measure := "1 cup" |}).
  - simpl. tauto.
  - vm_compute. tauto.
  - exists "", "s". reflexivity.
Qed.

(** C6, amended. For an exclusion list whose terms are already in lower case,
    [excludeIngredients] accepts a meal exactly when the list is empty or no
    term (lowercased) occurs in a lowercased extracted ingredient name; the
    meal with ingredients Chicken and Peanuts is rejected for the list
    [peanut] and accepted for the list [almond]. *)
Theorem excludeIngredients_lowercase_terms :
  (forall m excludes,
     (forall ex, In ex excludes -> toLowerCase ex = ex) ->
     excludeIngredients m excludes = true
     <-> excludes = []
         \/ forall ex i, In ex excludes -> In i (getIngredients m) ->
              ~ is_substring (toLowerCase ex) (toLowerCase (ingredient i)))
  /\ map ingredient (getIngredients chicken_peanuts) = ["Chicken"; "Peanuts"]
  /\ excludeIngredients chicken_peanuts ["peanut"] = false
  /\ excludeIngredients chicken_peanuts ["almond"] = true.
Proof.
  split; [|repeat split; vm_compute; reflexivity].
  intros m excludes Hlow. rewrite excludeIngredients_iff. split.
  - intros Hall. right. intros ex i Hex Hi.
    rewrite (Hlow ex Hex). now apply Hall.
  - intros [-> | Hall] ex i Hex Hi; [destruct Hex|].
    rewrite <- (Hlow ex Hex). now apply Hall.
Qed.

Lemma excludeIngredients_lowercase_terms_witness :
  (excludeIngredients chicken_peanuts ["nut"; "almond"] = true
   <-> ["nut"; "almond"] = []
       \/ forall ex i, In ex ["nut"; "almond"] ->
            In i (getIngredients chicken_peanuts) ->
            ~ is_substring (toLowerCase ex) (toLowerCase (ingredient i))).
Proof.
  apply (proj1 excludeIngredients_lowercase_terms).
  intros ex [<- | [<- | []]]; reflexivity.
Defined.

Lemma parse_list_In (input ex : string) :
  In ex (parse_list input)
  <-> ex <> ""
      /\ exists raw, In raw (split_comma input) /\ ex = toLowerCase (trim raw).
Proof.
  unfold parse_list. rewrite filter_In, in_map_iff, truthy_iff.
  split.
  - intros [(raw & <- & Hraw) Hne]. eauto.
  - intros [Hne (raw & Hraw & ->)]. eauto.
Qed.

Lemma excludeIngredients_upper_terms (m : MealDetails) (excludes : list string) :
  (forall ex, In ex excludes -> has_upper ex = true) ->
  excludeIngredients m excludes = true.
Proof.
  intros Hup. apply excludeIngredients_iff. intros ex i Hex Hi.
  apply includes_false_iff, upper_not_in_lowered. auto.
Qed.

(** C9. [excludeIngredients] compares the exclude terms verbatim against the
    lowercased ingredient names: a term with an upper-case character occurs in
    no ingredient of any meal, so a list of such terms excludes nothing; on
    terms in lower case the comparison is the case-insensitive one; and the
    terms produced by the parser of the exclude input are trimmed, lowercased
    and not blank. *)
Theorem excludeIngredients_verbatim :
  (forall m excludes,
     excludeIngredients m excludes = true
     <-> forall ex i, In ex excludes -> In i (getIngredients m) ->
           ~ is_substring ex (toLowerCase (ingredient i)))
  /\ (forall m ex i,
        has_upper ex = true -> In i (getIngredients m) ->
        ~ is_substring ex (toLowerCase (ingredient i)))
  /\ (forall m excludes,
        (forall ex, In ex excludes -> has_upper ex = true) ->
        excludeIngredients m excludes = true)
  /\ (forall m excludes,
        (forall ex, In ex excludes -> has_upper ex = false) ->
        excludeIngredients m excludes
        = excludeIngredients m (map toLowerCase excludes))
  /\ (forall f ex,
        In ex (parsedExcludes f) ->
        has_upper ex = false /\ ex <> ""
        /\ exists raw, In raw (split_comma (excludeInput f))
                       /\ ex = toLowerCase (trim raw)).
Proof.
  split; [exact excludeIngredients_iff|]. split; [|split; [|split]].
  - intros m ex i Hup _. now apply includes_false_iff, upper_not_in_lowered.
  - exact excludeIngredients_upper_terms.
  - intros m excludes Hlow. f_equal. symmetry.
    rewrite <- (map_id excludes) at 2. apply map_ext_in.
    intros ex Hex. now apply has_upper_false_iff, Hlow.
  - intros f ex Hex. apply parse_list_In in Hex as [Hne (raw & Hraw & ->)].
    split; [apply has_upper_lowered|]. split; [exact Hne|]. eauto.
Qed.

Lemma excludeIngredients_verbatim_witness :
  excludeIngredients chicken_peanuts ["Peanut"; "CHICKEN"] = true
  /\ excludeIngredients chicken_peanuts ["peanut"; "almond"]
     = excludeIngredients chicken_peanuts (map toLowerCase ["peanut"; "almond"])
  /\ parsedExcludes (form_of "" " Peanut ,, ALMOND") = ["peanut"; "almond"]
  /\ has_upper "peanut" = false.
Proof.
  destruct excludeIngredients_verbatim as (_ & _ & Hup & Hci & Hparse).
  split; [|split; [|split]].
  - apply Hup. intros ex [<- | [<- | []]]; reflexivity.
  - apply Hci. intros ex [<- | [<- | []]]; reflexivity.
  - reflexivity.
  - apply (Hparse (form_of "" " Peanut ,, ALMOND")). vm_compute. tauto.
Defined.

(** ** Mood filter *)

Lemma matchesMood_both_configured (m : MealDetails) (k : MoodKey)
    (cs ts : list string) :
  categories (MOOD_MAP k) = Some cs -> tagsContains (MOOD_MAP k) = Some ts ->
  matchesMood m (Mood k) = true <-> mood_policy m k.
Proof.
  intros Hc Ht. unfold matchesMood, mood_policy, mood_categories,
    mood_tag_substrings.
  rewrite Hc, Ht. simpl. rewrite orb_true_iff, array_includes_In,
    some_includes_iff. reflexivity.
Qed.

Lemma matchesMood_half_configured (m : MealDetails) (k : MoodKey) :
  categories (MOOD_MAP k) = None \/ tagsContains (MOOD_MAP k) = None ->
  matchesMood m (Mood k) = true.
Proof.
  unfold matchesMood. intros [-> | ->]; [reflexivity | apply orb_true_r].
Qed.

(** C1. For the moods that configure both a category set and tag substrings
    (Healthy, Adventurous) [matchesMood] is the disjunction of the
    specification.  For the moods that configure only one of the two
    (Comforting, Quick) the check of the member that is not configured counts
    as passed, and [matchesMood] accepts every meal: a Dessert without tags
    is accepted for Comforting and for Quick although it matches neither a
    configured category nor a configured tag substring. *)
Theorem matchesMood_policy :
  (forall m k, k = Healthy \/ k = Adventurous ->
     matchesMood m (Mood k) = true <-> mood_policy m k)
  /\ (forall m k, k = Comforting \/ k = Quick -> matchesMood m (Mood k) = true)
  /\ (matchesMood plain_dessert (Mood Comforting) = true
      /\ ~ mood_policy plain_dessert Comforting)
  /\ (matchesMood plain_dessert (Mood Quick) = true
      /\ ~ mood_policy plain_dessert Quick).
Proof.
  split; [|split; [|split]].
  - intros m k [-> | ->]; eapply matchesMood_both_configured; reflexivity.
  - intros m k [-> | ->]; apply matchesMood_half_configured; simpl; tauto.
  - split; [reflexivity|]. intros [Hcat | (tag & t & _ & [] & _)].
    vm_compute in Hcat. intuition discriminate.
  - split; [reflexivity|]. intros [[] | (tag & t & Htag & Ht & Hsub)].
    apply includes_iff in Hsub. vm_compute in Htag, Ht.
    destruct Htag as [<- | []].
    destruct Ht as [<- | [<- | []]]; vm_compute in Hsub; discriminate.
Qed.

Lemma matchesMood_policy_witness :
  (matchesMood plain_dessert (Mood Healthy) = true
   <-> mood_policy plain_dessert Healthy)
  /\ matchesMood chicken_peanuts (Mood Quick) = true.
Proof.
  destruct matchesMood_policy as (Hboth & Hhalf & _). split.
  - apply Hboth. left. reflexivity.
  - apply Hhalf. right. reflexivity.
Defined.

(** ** Sets of meal IDs and their intersection *)

Lemma Set_has_In (s : list string) (x : string) : Set_has s x = true <-> In x s.
Proof. apply array_includes_In. Qed.

Lemma Set_add_fold_In (xs acc : list string) (x : string) :
  In x (foldl Set_add acc xs) <-> In x acc \/ In x xs.
Proof.
  revert acc; induction xs as [|y xs IH]; intros acc; simpl; [tauto|].
  rewrite IH. unfold Set_add.
  destruct (array_includes acc y) eqn:Hy.
  - apply array_includes_In in Hy. intuition (subst; auto).
  - rewrite in_app_iff. simpl. intuition (subst; auto).
Qed.

Lemma Set_add_fold_NoDup (xs acc : list string) :
  List.NoDup acc -> List.NoDup (foldl Set_add acc xs).
Proof.
  revert acc; induction xs as [|y xs IH]; intros acc Hacc; simpl; [exact Hacc|].
  apply IH. unfold Set_add.
  destruct (array_includes acc y) eqn:Hy; [exact Hacc|].
  apply List.NoDup_app; [exact Hacc | repeat constructor; intros [] |].
  intros x Hx [<- | []]. apply array_includes_In in Hx. congruence.
Qed.

Lemma Set_add_fold_id (xs acc : list string) :
  List.NoDup (acc ++ xs) -> foldl Set_add acc xs = acc ++ xs.
Proof.
  revert acc; induction xs as [|y xs IH]; intros acc Hnd; simpl.
  - now rewrite app_nil_r.
  - assert (Hy : array_includes acc y = false).
    { apply not_true_iff_false. rewrite array_includes_In. intros Hin.
      apply List.NoDup_remove_2 in Hnd. apply Hnd, in_or_app. now left. }
    unfold Set_add. rewrite Hy, IH; rewrite <- app_assoc; [reflexivity|].
    exact Hnd.
Qed.

Lemma new_Set_In (xs : list string) (x : string) : In x (new_Set xs) <-> In x xs.
Proof. unfold new_Set. rewrite Set_add_fold_In. simpl. tauto. Qed.

Lemma new_Set_NoDup (xs : list string) : List.NoDup (new_Set xs).
Proof. apply Set_add_fold_NoDup. constructor. Qed.

Lemma new_Set_id (xs : list string) : List.NoDup xs -> new_Set xs = xs.
Proof. intros H. unfold new_Set. now rewrite Set_add_fold_id. Qed.

Lemma filter_has_NoDup (s acc : list string) :
  List.NoDup acc -> List.NoDup (List.filter (fun id => Set_has s id) acc).
Proof. apply List.NoDup_filter. Qed.

Lemma intersect2_eq (a b : list string) :
  intersect2 a b = List.filter (fun id => Set_has b id) (new_Set a).
Proof.
  unfold intersect2, intersect_all. simpl.
  apply new_Set_id, filter_has_NoDup, new_Set_NoDup.
Qed.

Lemma intersect2_In (a b : list string) (x : string) :
  In x (intersect2 a b) <-> In x a /\ In x b.
Proof. now rewrite intersect2_eq, filter_In, new_Set_In, Set_has_In. Qed.

Lemma filter_all_true {A : Type} (f : A -> bool) (l : list A) :
  (forall x, In x l -> f x = true) -> List.filter f l = l.
Proof.
  induction l as [|x l IH]; intros H; simpl; [reflexivity|].
  rewrite (H x) by now left. f_equal. apply IH. intros y Hy. apply H. now right.
Qed.

Lemma no_member_nil {A : Type} (l : list A) : (forall x, ~ In x l) -> l = [].
Proof.
  destruct l as [|x l]; [reflexivity|]. intros H. destruct (H x). now left.
Qed.

(** The loop, started on an intersection that is already a set. *)
Lemma intersect_loop (sets : list (list string)) (acc : list string) :
  List.NoDup acc ->
  exists r, foldl intersect_step (Some acc) sets = Some r
            /\ List.NoDup r
            /\ forall x, In x r <-> In x acc /\ forall s, In s sets -> In x s.
Proof.
  revert acc; induction sets as [|s sets IH]; intros acc Hacc; simpl.
  - exists acc. intuition.
  - pose proof (filter_has_NoDup s acc Hacc) as Hf.
    rewrite (new_Set_id _ Hf). destruct (IH _ Hf) as (r & -> & Hnd & Hin).
    exists r. split; [reflexivity|]. split; [exact Hnd|].
    intros x. rewrite Hin, filter_In, Set_has_In.
    intuition (subst; auto).
Qed.

Lemma intersect_all_In (sets : list (list string)) (x : string) :
  In x (default [] (intersect_all sets))
  <-> sets <> [] /\ forall s, In s sets -> In x s.
Proof.
  destruct sets as [|s sets]; unfold intersect_all; simpl.
  - intuition.
  - destruct (intersect_loop sets (new_Set s) (new_Set_NoDup s))
      as (r & -> & _ & Hin).
    simpl. rewrite Hin, new_Set_In. intuition (subst; auto; discriminate).
Qed.

Lemma candidate_ids_In (lists : list (list MealSummary)) (x : string) :
  In x (candidate_ids lists)
  <-> lists <> [] /\ forall l, In l lists -> In x (map s_idMeal l).
Proof.
  unfold candidate_ids, idSets_of. rewrite intersect_all_In. split.
  - intros [Hne Hall]. split; [now destruct lists|].
    intros l Hl. apply new_Set_In, Hall, in_map_iff. eauto.
  - intros [Hne Hall]. split; [now destruct lists|].
    intros s (l & <- & Hl)%in_map_iff. apply new_Set_In. auto.
Qed.

(** C8. The intersection of ID sets computed by the loop of [onSearch] is
    commutative and associative as a set; a list of IDs intersected with
    itself has the same IDs (and is the very same list when it has no
    repetition); the intersection with an empty list, on either side, is
    empty.  Over the per-ingredient result lists the loop keeps exactly the
    IDs present in every list, whatever the order of the lists. *)
Theorem intersection_laws :
  (forall a b x, In x (intersect2 a b) <-> In x (intersect2 b a))
  /\ (forall a b c x,
        In x (intersect2 (intersect2 a b) c)
        <-> In x (intersect2 a (intersect2 b c)))
  /\ (forall a x, In x (intersect2 a a) <-> In x a)
  /\ (forall a, List.NoDup a -> intersect2 a a = a)
  /\ (forall a, intersect2 a [] = [] /\ intersect2 [] a = [])
  /\ (forall lists x,
        In x (candidate_ids lists)
        <-> lists <> [] /\ forall l, In l lists -> In x (map s_idMeal l))
  /\ (forall lists lists' x,
        Permutation lists lists' ->
        In x (candidate_ids lists) <-> In x (candidate_ids lists')).
Proof.
  split; [|split; [|split; [|split; [|split; [|split]]]]].
  - intros a b x. rewrite !intersect2_In. tauto.
  - intros a b c x. rewrite !intersect2_In. tauto.
  - intros a x. rewrite intersect2_In. tauto.
  - intros a Ha. rewrite intersect2_eq, (new_Set_id a Ha).
    apply filter_all_true. intros x Hx. now apply Set_has_In.
  - intros a. split; apply no_member_nil; intros x Hx;
      apply intersect2_In in Hx as [H1 H2]; contradiction.
  - exact candidate_ids_In.
  - intros lists lists' x Hperm. rewrite !candidate_ids_In.
    split; intros [Hne Hall]; split.
    + intros ->. apply Permutation_sym, Permutation_nil in Hperm. auto.
    + intros l Hl. apply Hall. eapply Permutation_in; [|exact Hl].
      now apply Permutation_sym.
    + intros ->. apply Permutation_nil in Hperm. auto.
    + intros l Hl. apply Hall. eapply Permutation_in; [|exact Hl]. exact Hperm.
Qed.

Lemma intersection_laws_witness :
  (In "3" (candidate_ids [[summary "1"; summary "3"]; [summary "3"]])
   <-> In "3" (candidate_ids [[summary "3"]; [summary "1"; summary "3"]]))
  /\ intersect2 ["1"; "3"] ["1"; "3"] = ["1"; "3"].
Proof.
  destruct intersection_laws as (_ & _ & _ & Hself & _ & _ & Hperm). split.
  - apply Hperm. apply perm_swap.
  - apply Hself. repeat constructor; simpl; intuition discriminate.
Defined.

(** ** Search orchestrator *)

Lemma run_app (st : UiState) (a b : list Event) :
  run st (a ++ b) = run (run st a) b.
Proof. apply foldl_app. Qed.

Lemma run_requests (st : UiState) (evs : list Event) :
  List.Forall (fun e => is_request e = true) evs -> run st evs = st.
Proof.
  induction 1 as [|e evs He _ IH]; [reflexivity|].
  destruct e; try discriminate; exact IH.
Qed.

Lemma filter_queries_are_requests (l : list string) :
  List.Forall (fun e => is_request e = true) (map FilterQuery l).
Proof. induction l; constructor; auto. Qed.

Lemma detail_queries_are_requests (l : list string) :
  List.Forall (fun e => is_request e = true) (map DetailQuery l).
Proof. induction l; constructor; auto. Qed.

Lemma Promise_all_map {A B : Type} (g : A -> Outcome B) (h : A -> B)
    (xs : list A) :
  (forall x, In x xs -> g x = Resolved (h x)) ->
  Promise_all (map g xs) = Resolved (map h xs).
Proof.
  induction xs as [|x xs IH]; intros H; simpl; [reflexivity|].
  rewrite (H x) by now left. rewrite IH; [reflexivity|].
  intros y Hy. apply H. now right.
Qed.

Lemma omap_map_In {A B : Type} (g : A -> option B) (xs : list A) (y : B) :
  In y (omap id (map g xs)) <-> exists x, In x xs /\ g x = Some y.
Proof.
  induction xs as [|x xs IH]; simpl.
  - split; [intros [] | intros (x & [] & _)].
  - unfold id at 1. destruct (g x) as [b|] eqn:Hg; simpl; rewrite IH.
    + split.
      * intros [<- | (x' & Hx' & Hy)]; eauto.
      * intros (x' & [<- | Hx'] & Hy); [left; congruence | eauto].
    + split.
      * intros (x' & Hx' & Hy). eauto.
      * intros (x' & [<- | Hx'] & Hy); [congruence | eauto].
Qed.

(** The state in which the handler leaves the component. *)
Lemma after_search_eq (net : Network) (f : Form) (st : UiState) :
  after_search net f st
  = match parsedIngredients f with
    | [] => settled (Some "Enter at least one ingredient.") []
    | _ :: _ =>
        match Promise_all (map (API.filterByIngredient net)
                             (parsedIngredients f)) with
        | Rejected msg => settled (Some (error_text msg)) []
        | Resolved lists =>
            match candidate_ids lists with
            | [] => settled None []
            | ids =>
                match Promise_all (map (API.detailsById net)
                                     (selected_ids ids)) with
                | Rejected msg => settled (Some (error_text msg)) []
                | Resolved fetched =>
                    settled None
                      (List.filter (passes_filters f) (omap id fetched))
                end
            end
        end
    end.
Proof.
  unfold after_search, onSearch. rewrite !run_app.
  destruct (parsedIngredients f) as [|p ps] eqn:Hp; [reflexivity|].
  unfold search_candidates. rewrite Hp, run_app.
  rewrite (run_requests _ _ (filter_queries_are_requests _)).
  destruct (Promise_all _) as [lists|msg]; [|reflexivity].
  destruct (candidate_ids lists) as [|i ids]; [reflexivity|].
  unfold search_details. rewrite run_app.
  rewrite (run_requests _ _ (detail_queries_are_requests _)).
  destruct (Promise_all _); reflexivity.
Qed.

Lemma filter_queries_app (a b : list Event) :
  filter_queries (a ++ b) = filter_queries a ++ filter_queries b.
Proof. apply omap_app. Qed.

Lemma filter_queries_map (l : list string) :
  filter_queries (map FilterQuery l) = l.
Proof. induction l as [|x l IH]; simpl; [reflexivity|]. now f_equal. Qed.

Lemma filter_queries_details (l : list string) :
  filter_queries (map DetailQuery l) = [].
Proof. induction l as [|x l IH]; simpl; [reflexivity | exact IH]. Qed.

Lemma filter_queries_onSearch (net : Network) (f : Form) :
  filter_queries (onSearch net f) = parsedIngredients f.
Proof.
  unfold onSearch. rewrite !filter_queries_app. simpl.
  rewrite app_nil_r.
  destruct (parsedIngredients f) as [|p ps] eqn:Hp; [reflexivity|].
  unfold search_candidates. rewrite Hp, filter_queries_app, filter_queries_map.
  match goal with |- _ ++ ?t = _ => assert (Ht : t = []) end.
  { destruct (Promise_all _) as [lists|msg]; [|reflexivity].
    destruct (candidate_ids lists) as [|i ids]; [reflexivity|].
    unfold search_details. rewrite filter_queries_app, filter_queries_details.
    destruct (Promise_all _); reflexivity. }
  rewrite Ht. apply app_nil_r.
Qed.

(** C4, as stated, fails: a repeated ingredient is queried once per
    occurrence. *)
Lemma repeated_ingredient_queried_twice :
  ~ (forall net f x,
       In x (parsedIngredients f) ->
       count_occ string_dec (filter_queries (onSearch net f)) x = 1%nat).
Proof.
  intros Hclaim.
  specialize (Hclaim steady_net (form_of "chicken,chicken" "") "chicken").
  assert (Hin : In "chicken" (parsedIngredients (form_of "chicken,chicken" "")))
    by (vm_compute; tauto).
  apply Hclaim in Hin. vm_compute in Hin. discriminate.
Qed.

(** C4, amended. The handler issues exactly one [filterByIngredient] query
    per parsed ingredient entry, in input order, the parsed entries being the
    comma-separated entries trimmed and lowercased with the blank ones
    removed; an ingredient is queried as many times as it is entered, hence
    once when the entries are distinct and twice when it is entered twice. *)
Theorem one_query_per_parsed_entry :
  (forall net f, filter_queries (onSearch net f) = parsedIngredients f)
  /\ (forall f,
        parsedIngredients f
        = List.filter truthy
            (map (fun s => toLowerCase (trim s))
               (split_comma (ingredientsInput f))))
  /\ (forall net f x,
        count_occ string_dec (filter_queries (onSearch net f)) x
        = count_occ string_dec (parsedIngredients f) x)
  /\ (forall net f x,
        List.NoDup (parsedIngredients f) -> In x (parsedIngredients f) ->
        count_occ string_dec (filter_queries (onSearch net f)) x = 1%nat)
  /\ (forall net,
        filter_queries (onSearch net (form_of "chicken, Chicken ,,rice" ""))
        = ["chicken"; "chicken"; "rice"]).
Proof.
  split; [exact filter_queries_onSearch|]. split; [reflexivity|].
  split; [|split].
  - intros net f x. now rewrite filter_queries_onSearch.
  - intros net f x Hnd Hx. rewrite filter_queries_onSearch.
    now apply NoDup_count_occ'.
  - intros net. now rewrite filter_queries_onSearch.
Qed.

Lemma one_query_per_parsed_entry_witness :
  count_occ string_dec
    (filter_queries (onSearch down_net (form_of "Rice, chicken" ""))) "rice"
  = 1%nat.
Proof.
  apply (proj1 (proj2 (proj2 (proj2 one_query_per_parsed_entry)))).
  - repeat constructor; simpl; intuition discriminate.
  - vm_compute. tauto.
Defined.

Lemma Promise_all_Rejected {A : Type} (ps : list (Outcome A)) (msg : string) :
  Promise_all ps = Rejected msg -> In (Rejected msg) ps.
Proof.
  induction ps as [|[a|msg'] ps IH]; simpl; [discriminate | |].
  - destruct (Promise_all ps); [discriminate|]. intros [= <-]. right. now apply IH.
  - intros [= <-]. now left.
Qed.

Lemma Promise_all_some_Rejected {A : Type} (ps : list (Outcome A))
    (msg : string) :
  In (Rejected msg) ps -> exists msg', Promise_all ps = Rejected msg'.
Proof.
  induction ps as [|[a|msg'] ps IH]; simpl; [tauto | |].
  - intros [Heq | Hin]; [discriminate|].
    destruct (IH Hin) as [msg'' ->]. eauto.
  - eauto.
Qed.

Lemma delivered_iff (net : Network) (id : string) (m : MealDetails) :
  delivered net id = Some m <-> API.detailsById net id = Resolved (Some m).
Proof.
  unfold delivered. destruct (API.detailsById net id); split; congruence.
Qed.

Lemma passes_filters_iff (f : Form) (m : MealDetails) :
  passes_filters f m = true
  <-> matchesTime m (time f) = true /\ matchesMood m (mood f) = true
      /\ matchesDiet m (diet f) = true
      /\ excludeIngredients m (parsedExcludes f) = true.
Proof. unfold passes_filters. rewrite !andb_true_iff. tauto. Qed.

(** C3, as stated, fails: a rejected detail lookup ends the search in the
    error state, and the meals whose lookups answered are not shown. *)
Lemma rejected_lookup_drops_all_results :
  ~ (forall net f st lists,
       parsedIngredients f <> [] ->
       Promise_all (map (API.filterByIngredient net) (parsedIngredients f))
       = Resolved lists ->
       forall m,
         In m (meals (after_search net f st))
         <-> exists id,
               In id (take 24 (candidate_ids lists))
               /\ API.detailsById net id = Resolved (Some m)
               /\ matchesTime m (time f) = true
               /\ matchesMood m (mood f) = true
               /\ matchesDiet m (diet f) = true
               /\ excludeIngredients m (parsedExcludes f) = true).
Proof.
  intros Hclaim.
  specialize (Hclaim flaky_net (form_of "a" "") idle
                [[summary "1"; summary "3"]]).
  assert (Hshown : In chicken_peanuts
                     (meals (after_search flaky_net (form_of "a" "") idle))).
  { apply Hclaim; [discriminate | reflexivity |].
    exists "1". repeat split. vm_compute. tauto. }
  vm_compute in Hshown. exact Hshown.
Qed.

(** C3, amended. When the search passes validation and every candidate query
    succeeds: if no detail lookup of the first 24 candidate IDs is rejected,
    a meal is in the final results exactly when it is the non-null answer to
    the lookup of one of those IDs and the time, mood, diet and exclusion
    predicates all hold of it; lookups that find nothing are dropped and the
    search ends without an error.  If some detail lookup of those IDs is
    rejected, the search ends in the error state, with the message of a
    rejected lookup and with no results at all. *)
Theorem search_results_iff :
  (forall (net : Network) (f : Form) (st : UiState)
          (lists : list (list MealSummary)),
     parsedIngredients f <> [] ->
     Promise_all (map (API.filterByIngredient net) (parsedIngredients f))
     = Resolved lists ->
     (forall id, In id (take 24 (candidate_ids lists)) ->
        exists r, API.detailsById net id = Resolved r) ->
     (forall m,
        In m (meals (after_search net f st))
        <-> exists id,
              In id (take 24 (candidate_ids lists))
              /\ API.detailsById net id = Resolved (Some m)
              /\ matchesTime m (time f) = true
              /\ matchesMood m (mood f) = true
              /\ matchesDiet m (diet f) = true
              /\ excludeIngredients m (parsedExcludes f) = true)
     /\ error (after_search net f st) = None
     /\ meals (after_search net f st)
        = List.filter (passes_filters f)
            (omap id (map (delivered net) (take 24 (candidate_ids lists)))))
  /\ (forall (net : Network) (f : Form) (st : UiState)
             (lists : list (list MealSummary)),
        parsedIngredients f <> [] ->
        Promise_all (map (API.filterByIngredient net) (parsedIngredients f))
        = Resolved lists ->
        (exists id msg, In id (take 24 (candidate_ids lists))
                        /\ API.detailsById net id = Rejected msg) ->
        meals (after_search net f st) = []
        /\ exists id msg,
             In id (take 24 (candidate_ids lists))
             /\ API.detailsById net id = Rejected msg
             /\ error (after_search net f st) = Some (error_text msg)).
Proof.
  split.
  - intros net f st lists Hne Hlists Hanswer.
    rewrite after_search_eq, Hlists.
    destruct (parsedIngredients f) as [|p ps]; [contradiction|].
    remember (candidate_ids lists) as ids eqn:Hids.
    assert (Hall : Promise_all (map (API.detailsById net) (take 24 ids))
                   = Resolved (map (delivered net) (take 24 ids))).
    { apply Promise_all_map. intros i Hi. destruct (Hanswer i Hi) as [r Hr].
      unfold delivered. now rewrite Hr. }
    destruct ids as [|i ids'].
    + split; [|split; reflexivity]. intros m. simpl.
      split; [intros [] | intros (x & [] & _)].
    + unfold selected_ids. rewrite Hall. split; [|split; reflexivity].
      intros m. cbn [meals settled].
      rewrite filter_In, omap_map_In, passes_filters_iff. split.
      * intros [(x & Hx & Hd) Hp]. exists x. apply delivered_iff in Hd. tauto.
      * intros (x & Hx & Hd & Hp). apply delivered_iff in Hd. eauto.
  - intros net f st lists Hne Hlists (i & msg & Hi & Hrej).
    rewrite after_search_eq, Hlists.
    destruct (parsedIngredients f) as [|p ps]; [contradiction|].
    remember (candidate_ids lists) as ids eqn:Hids.
    destruct ids as [|c ids']; [destruct Hi|].
    unfold selected_ids.
    destruct (Promise_all_some_Rejected
                (map (API.detailsById net) (take 24 (c :: ids'))) msg)
      as [msg' Hwin].
    { apply in_map_iff. exists i. split; [exact Hrej | exact Hi]. }
    rewrite Hwin. split; [reflexivity|].
    apply Promise_all_Rejected, in_map_iff in Hwin as (x & Hx & Hin).
    exists x, msg'. split; [exact Hin|]. split; [exact Hx | reflexivity].
Qed.

Lemma search_results_iff_witness :
  ((forall m,
      In m (meals (after_search steady_net (form_of "chicken" "almond") idle))
      <-> exists id,
            In id (take 24 (candidate_ids
                              [[summary "1"; summary "3"; summary "1"]]))
            /\ API.detailsById steady_net id = Resolved (Some m)
            /\ matchesTime m TimeAny = true
            /\ matchesMood m MoodAny = true
            /\ matchesDiet m DietNone = true
            /\ excludeIngredients m ["almond"] = true)
   /\ error (after_search steady_net (form_of "chicken" "almond") idle) = None
   /\ meals (after_search steady_net (form_of "chicken" "almond") idle)
      = [chicken_peanuts])
  /\ (meals (after_search flaky_net (form_of "a" "") idle) = []
      /\ exists id msg,
           In id (take 24 (candidate_ids [[summary "1"; summary "3"]]))
           /\ API.detailsById flaky_net id = Rejected msg
           /\ error (after_search flaky_net (form_of "a" "") idle)
              = Some (error_text msg)).
Proof.
  destruct search_results_iff as [Hall Hrej]. split.
  - apply (Hall steady_net (form_of "chicken" "almond") idle
             [[summary "1"; summary "3"; summary "1"]]).
    + discriminate.
    + reflexivity.
    + intros i Hi. vm_compute in Hi.
      destruct Hi as [<- | [<- | []]]; eexists; reflexivity.
  - apply (Hrej flaky_net (form_of "a" "") idle [[summary "1"; summary "3"]]).
    + discriminate.
    + reflexivity.
    + exists "3", "Failed to fetch". split; [vm_compute; tauto | reflexivity].
Defined.

(** The trace of the handler: the clearing updates, then requests only, then
    updates only. *)
Lemma onSearch_shape (net : Network) (f : Form) :
  exists reqs post,
    onSearch net f = clearing ++ reqs ++ post
    /\ List.Forall (fun e => is_request e = true) reqs
    /\ List.Forall (fun e => is_request e = false) post.
Proof.
  unfold onSearch. fold clearing.
  destruct (parsedIngredients f) as [|p ps] eqn:Hp.
  - exists [], [SetError (Some "Enter at least one ingredient.");
                SetLoading false; SetLoading false].
    split; [reflexivity|]. split; repeat constructor.
  - unfold search_candidates. rewrite Hp.
    destruct (Promise_all _) as [lists|msg].
    + destruct (candidate_ids lists) as [|i ids] eqn:Hids.
      * exists (map FilterQuery (p :: ps)),
          [SetMeals []; SetLoading false; SetLoading false].
        split; [now rewrite <- !app_assoc|].
        split; [apply filter_queries_are_requests | repeat constructor].
      * unfold search_details.
        destruct (Promise_all _) as [fetched|msg];
          eexists (map FilterQuery (p :: ps)
                   ++ map DetailQuery (selected_ids (i :: ids))),
            [_; SetLoading false];
          (split; [now rewrite <- !app_assoc|]);
          (split; [apply Forall_app; split;
                   [apply filter_queries_are_requests
                   | apply detail_queries_are_requests]
                  | repeat constructor]).
    + exists (map FilterQuery (p :: ps)),
        [SetError (Some (error_text msg)); SetLoading false].
      split; [now rewrite <- !app_assoc|].
      split; [apply filter_queries_are_requests | repeat constructor].
Qed.

(** In such a trace, whatever precedes a request is the clearing updates
    followed by requests. *)
Lemma before_request (pre reqs post before after : list Event) (e : Event) :
  List.Forall (fun x => is_request x = false) pre ->
  List.Forall (fun x => is_request x = true) reqs ->
  List.Forall (fun x => is_request x = false) post ->
  pre ++ reqs ++ post = before ++ e :: after ->
  is_request e = true ->
  exists r1, before = pre ++ r1
             /\ List.Forall (fun x => is_request x = true) r1.
Proof.
  intros Hpre Hreqs Hpost. revert before.
  induction Hpre as [|x pre Hx _ IHpre]; intros before Heq He.
  - simpl in Heq. revert before Heq.
    induction Hreqs as [|r reqs Hr _ IHreqs]; intros before Heq.
    + simpl in Heq. exfalso.
      assert (Hin : In e post) by (rewrite Heq; apply in_elt).
      rewrite List.Forall_forall in Hpost. specialize (Hpost e Hin).
      congruence.
    + destruct before as [|b before]; simpl in Heq.
      * exists []. split; [reflexivity | constructor].
      * injection Heq as <- Heq. destruct (IHreqs before Heq) as (r1 & Hr1 & Hall).
        simpl in Hr1. exists (r :: r1). split; [simpl; congruence|].
        constructor; assumption.
  - destruct before as [|b before]; simpl in Heq.
    + injection Heq as <- _. congruence.
    + injection Heq as <- Heq. destruct (IHpre before Heq He) as (r1 & -> & Hall).
      exists r1. split; [reflexivity | exact Hall].
Qed.

Lemma error_cases (net : Network) (f : Form) (st : UiState) :
  error (after_search net f st) <> None ->
  meals (after_search net f st) = []
  /\ expanded (after_search net f st) = ∅.
Proof.
  rewrite after_search_eq.
  destruct (parsedIngredients f); [split; reflexivity|].
  destruct (Promise_all _) as [lists|msg]; [|split; reflexivity].
  destruct (candidate_ids lists); [split; reflexivity|].
  destruct (Promise_all _); [|split; reflexivity].
  intros H. now contradiction H.
Qed.

(** C10. Every submit clears the results list and the expanded-card state
    before any network request is issued, and nothing on the error path sets
    them again: a search that ends with an error set, be it by failed
    validation, by a failed candidate query or otherwise, ends with an empty
    results list and no expanded card, whatever the previous search had left
    there. *)
Theorem failed_search_shows_no_results :
  (forall net f, exists rest, onSearch net f = clearing ++ rest)
  /\ (forall net f st before e after,
        onSearch net f = before ++ e :: after -> is_request e = true ->
        meals (run st before) = [] /\ expanded (run st before) = ∅)
  /\ (forall net f st,
        error (after_search net f st) <> None ->
        meals (after_search net f st) = []
        /\ expanded (after_search net f st) = ∅)
  /\ (forall net f st,
        parsedIngredients f = [] ->
        error (after_search net f st) = Some "Enter at least one ingredient."
        /\ meals (after_search net f st) = []
        /\ List.Forall (fun e => is_request e = false) (onSearch net f))
  /\ (forall net f st msg,
        parsedIngredients f <> [] ->
        Promise_all (map (API.filterByIngredient net) (parsedIngredients f))
        = Rejected msg ->
        error (after_search net f st) = Some (error_text msg)
        /\ meals (after_search net f st) = []).
Proof.
  split; [|split; [|split; [|split]]].
  - intros net f. destruct (onSearch_shape net f) as (reqs & post & -> & _).
    eauto.
  - intros net f st before e after Heq He.
    destruct (onSearch_shape net f) as (reqs & post & Hshape & Hreqs & Hpost).
    rewrite Hshape in Heq.
    destruct (before_request clearing reqs post before after e) as (r1 & -> & Hr1);
      auto; [repeat constructor|].
    rewrite run_app, (run_requests _ _ Hr1). split; reflexivity.
  - exact error_cases.
  - intros net f st Hp. rewrite after_search_eq. unfold onSearch.
    rewrite Hp. split; [reflexivity|]. split; [reflexivity|].
    repeat constructor.
  - intros net f st msg Hne Hrej. rewrite after_search_eq, Hrej.
    destruct (parsedIngredients f); [contradiction|]. split; reflexivity.
Qed.

Lemma failed_search_shows_no_results_witness :
  (error (after_search down_net (form_of "rice" "") idle)
   = Some "Network error fetching meals"
   /\ meals (after_search down_net (form_of "rice" "") idle) = [])
  /\ (meals (after_search flaky_net (form_of "a" "") idle) = []
      /\ expanded (after_search flaky_net (form_of "a" "") idle) = ∅)
  /\ (error (after_search steady_net (form_of " , " "") idle)
      = Some "Enter at least one ingredient."
      /\ meals (after_search steady_net (form_of " , " "") idle) = []
      /\ List.Forall (fun e => is_request e = false)
           (onSearch steady_net (form_of " , " "")))
  /\ meals idle <> [].
Proof.
  destruct failed_search_shows_no_results
    as (_ & _ & Herr & Hvalid & Hdisc).
  split; [|split; [|split]].
  - apply (Hdisc down_net (form_of "rice" "") idle
             "Network error fetching meals"); [discriminate | reflexivity].
  - apply Herr. vm_compute. discriminate.
  - apply Hvalid. reflexivity.
  - discriminate.
Defined.

(** * Further properties of the code *)

(** ** Trimming, lowercasing and splitting *)

Lemma is_ws_lower (c : ascii) : is_ws (toLowerChar c) = is_ws c.
Proof. destruct c as [[] [] [] [] [] [] [] []]; vm_compute; reflexivity. Qed.

Lemma comma_lower (c : ascii) : toLowerChar c = ","%char <-> c = ","%char.
Proof.
  destruct c as [[] [] [] [] [] [] [] []]; vm_compute;
    split; intros H; first [reflexivity | discriminate H].
Qed.

Lemma toLowerCase_empty (s : string) : toLowerCase s = "" <-> s = "".
Proof. destruct s; simpl; split; congruence. Qed.

Lemma trimStart_head (s : string) :
  trimStart s = ""
  \/ exists c r, trimStart s = String c r /\ is_ws c = false.
Proof.
  induction s as [|c s IH]; simpl; [now left|].
  destruct (is_ws c) eqn:Hc; [exact IH|]. right. eauto.
Qed.

Lemma trimEnd_head (c : ascii) (r : string) :
  is_ws c = false -> exists r', trimEnd (String c r) = String c r'.
Proof.
  intros Hc. simpl. destruct (trimEnd r); rewrite ?Hc; eauto.
Qed.

Lemma trimEnd_idem (s : string) : trimEnd (trimEnd s) = trimEnd s.
Proof.
  induction s as [|c s IH]; simpl; [reflexivity|].
  destruct (trimEnd s) as [|d r] eqn:Hr.
  - destruct (is_ws c) eqn:Hc; simpl; [reflexivity | now rewrite Hc].
  - change (trimEnd (String c (String d r)) = String c (String d r)).
    cbn [trimEnd]. cbn [trimEnd] in IH. now rewrite IH.
Qed.

Lemma trim_idem (s : string) : trim (trim s) = trim s.
Proof.
  unfold trim. destruct (trimStart_head s) as [-> | (c & r & -> & Hc)].
  - reflexivity.
  - destruct (trimEnd_head c r Hc) as [r' Hr'].
    rewrite Hr' at 1. cbn [trimStart]. rewrite Hc, <- Hr'.
    apply trimEnd_idem.
Qed.

Lemma trimStart_lower (s : string) :
  trimStart (toLowerCase s) = toLowerCase (trimStart s).
Proof.
  induction s as [|c s IH]; simpl; [reflexivity|].
  rewrite is_ws_lower. destruct (is_ws c); [exact IH | reflexivity].
Qed.

Lemma trimEnd_lower (s : string) :
  trimEnd (toLowerCase s) = toLowerCase (trimEnd s).
Proof.
  induction s as [|c s IH]; simpl; [reflexivity|].
  rewrite IH, is_ws_lower.
  destruct (trimEnd s); simpl; [destruct (is_ws c)|]; reflexivity.
Qed.

Lemma trim_lower (s : string) : trim (toLowerCase s) = toLowerCase (trim s).
Proof. unfold trim. now rewrite trimStart_lower, trimEnd_lower. Qed.

Lemma trimEnd_blank (s : string) :
  trimEnd s = "" <-> forall c, In c (code_units s) -> is_ws c = true.
Proof.
  unfold code_units. induction s as [|c s IH]; simpl.
  - split; [intros _ c [] | reflexivity].
  - destruct (trimEnd s) as [|d r].
    + destruct (is_ws c) eqn:Hc.
      * split; [|reflexivity]. intros _ x [<- | Hx]; [exact Hc|].
        now apply IH.
      * split; [discriminate|]. intros H.
        specialize (H c (or_introl eq_refl)). congruence.
    + split; [discriminate|]. intros H.
      assert (Hs : String d r = "") by (apply IH; intros x Hx; apply H; now right).
      discriminate.
Qed.

Lemma trimStart_units (s : string) (c : ascii) :
  In c (code_units (trimStart s)) -> In c (code_units s).
Proof.
  unfold code_units. induction s as [|d s IH]; simpl; [tauto|].
  destruct (is_ws d); simpl; tauto.
Qed.

Lemma trimEnd_units (s : string) (c : ascii) :
  In c (code_units (trimEnd s)) -> In c (code_units s).
Proof.
  unfold code_units. induction s as [|d s IH]; simpl; [tauto|].
  destruct (trimEnd s) as [|e r]; [destruct (is_ws d)|]; simpl in *; tauto.
Qed.

Lemma trim_blank (s : string) :
  trim s = "" <-> forall c, In c (code_units s) -> is_ws c = true.
Proof.
  unfold trim. rewrite trimEnd_blank. split.
  - intros H. unfold code_units in *.
    induction s as [|d s IH]; simpl in *; [tauto|].
    destruct (is_ws d) eqn:Hd.
    + intros c [<- | Hc]; [exact Hd | now apply IH].
    + exact H.
  - intros H c Hc. apply H, trimStart_units, Hc.
Qed.

Lemma toLowerCase_units (s : string) (c : ascii) :
  In c (code_units (toLowerCase s))
  <-> exists d, In d (code_units s) /\ c = toLowerChar d.
Proof.
  unfold code_units. induction s as [|e s IH]; simpl.
  - split; [tauto | intros (d & [] & _)].
  - rewrite IH. split.
    + intros [<- | (d & Hd & ->)]; eauto.
    + intros (d & [<- | Hd] & ->); eauto.
Qed.

Lemma split_comma_cons (s : string) : exists h t, split_comma s = h :: t.
Proof.
  induction s as [|c s (h & t & IH)]; simpl; eauto.
  destruct (Ascii.eqb c ","); rewrite ?IH; eauto.
Qed.

(** The pieces of [split(',')] hold exactly the code units that are not
    commas. *)
Lemma split_comma_units (s : string) (c : ascii) :
  (exists piece, In piece (split_comma s) /\ In c (code_units piece))
  <-> In c (code_units s) /\ c <> ","%char.
Proof.
  unfold code_units. induction s as [|d s IH]; simpl.
  - split; [intros (p & [<- | []] & []) | tauto].
  - destruct (Ascii.eqb_spec d ",") as [-> | Hd].
    + split.
      * intros (p & [<- | Hp] & Hc); [destruct Hc|].
        destruct (proj1 IH (ex_intro _ p (conj Hp Hc))). tauto.
      * intros [[<- | Hc] Hne]; [congruence|].
        destruct (proj2 IH (conj Hc Hne)) as (p & Hp & Hcp).
        exists p. simpl. tauto.
    + destruct (split_comma_cons s) as (h & t & Hs). rewrite Hs in *.
      split.
      * intros (p & [<- | Hp] & Hc).
        -- simpl in Hc. destruct Hc as [<- | Hc]; [tauto|].
           destruct (proj1 IH (ex_intro _ h (conj (or_introl eq_refl) Hc))).
           tauto.
        -- destruct (proj1 IH (ex_intro _ p (conj (or_intror Hp) Hc))). tauto.
      * intros [[<- | Hc] Hne].
        -- exists (String d h). simpl. tauto.
        -- destruct (proj2 IH (conj Hc Hne)) as (p & [<- | Hp] & Hcp).
           ++ exists (String d h). simpl. tauto.
           ++ exists p. simpl. tauto.
Qed.

Lemma split_comma_app (a b : string) :
  split_comma (a +:+ String "," b) = split_comma a ++ split_comma b.
Proof.
  induction a as [|c a IH]; simpl; [reflexivity|].
  rewrite IH. destruct (Ascii.eqb c ","); [reflexivity|].
  destruct (split_comma_cons a) as (h & t & ->). reflexivity.
Qed.

Lemma toLowerCase_idem (s : string) : toLowerCase (toLowerCase s) = toLowerCase s.
Proof.
  induction s as [|c s IH]; simpl; [reflexivity|].
  now rewrite toLowerChar_idem, IH.
Qed.

Lemma filter_truthy_nil (l : list string) :
  List.filter truthy l = [] <-> forall x, In x l -> x = "".
Proof.
  induction l as [|x l IH]; simpl; [tauto|].
  destruct x as [|c x]; simpl.
  - rewrite IH. split; [intros H y [<- | Hy]; auto | auto].
  - split; [discriminate|]. intros H.
    specialize (H _ (or_introl eq_refl)). discriminate.
Qed.

Lemma take_In {A : Type} (n : nat) (l : list A) (x : A) :
  In x (take n l) -> In x l.
Proof.
  revert l; induction n as [|n IH]; intros [|y l]; simpl; try tauto.
  intros [-> | H]; auto.
Qed.

Lemma take_length_le {A : Type} (n : nat) (l : list A) :
  (length (take n l) <= n)%nat.
Proof. rewrite length_take. lia. Qed.

Lemma parse_list_blank (input : string) :
  parse_list input = []
  <-> forall c, In c (code_units input) -> is_ws c = true \/ c = ","%char.
Proof.
  unfold parse_list. rewrite filter_truthy_nil. split.
  - intros H c Hc. destruct (ascii_dec c ",") as [-> | Hne]; [now right|].
    left. destruct (proj2 (split_comma_units input c) (conj Hc Hne))
      as (piece & Hp & Hcp).
    assert (Hblank : toLowerCase (trim piece) = "")
      by (apply H, in_map_iff; eauto).
    apply (proj1 (toLowerCase_empty _)) in Hblank.
    exact (proj1 (trim_blank piece) Hblank c Hcp).
  - intros H x (piece & <- & Hp)%in_map_iff.
    apply toLowerCase_empty, trim_blank. intros c Hc.
    destruct (proj1 (split_comma_units input c)
                (ex_intro _ piece (conj Hp Hc))) as [Hin Hne].
    destruct (H c Hin); [assumption | contradiction].
Qed.

(** X1. What the parser of the two comma-separated inputs produces: every
    entry is non-blank, trimmed, in lower case and free of commas; and the
    list is empty exactly when the input holds nothing but commas and white
    space, which is exactly when [onSearch] issues no candidate query. *)
Theorem parsed_entries_normal :
  (forall input x,
     In x (parse_list input) ->
     x <> "" /\ trim x = x /\ toLowerCase x = x
     /\ ~ In ","%char (code_units x))
  /\ (forall input,
        parse_list input = []
        <-> forall c, In c (code_units input) ->
              is_ws c = true \/ c = ","%char)
  /\ (forall net f,
        filter_queries (onSearch net f) = []
        <-> forall c, In c (code_units (ingredientsInput f)) ->
              is_ws c = true \/ c = ","%char).
Proof.
  split; [|split].
  - intros input x Hx. apply parse_list_In in Hx as [Hne (raw & Hraw & ->)].
    split; [exact Hne|]. split; [|split].
    + now rewrite trim_lower, trim_idem.
    + apply toLowerCase_idem.
    + intros Hc. apply toLowerCase_units in Hc as (d & Hd & Heq).
      symmetry in Heq. apply comma_lower in Heq as ->.
      unfold trim in Hd. apply trimEnd_units, trimStart_units in Hd.
      destruct (proj1 (split_comma_units input ","%char)
                  (ex_intro _ raw (conj Hraw Hd))) as [_ Hne'].
      now apply Hne'.
  - exact parse_list_blank.
  - intros net f. rewrite filter_queries_onSearch. apply parse_list_blank.
Qed.

Lemma parsed_entries_normal_witness :
  trim "brown rice" = "brown rice"
  /\ parse_list " ,,  , " = []
  /\ parse_list " Brown Rice ,,EGG" = ["brown rice"; "egg"].
Proof.
  destruct parsed_entries_normal as (Hentry & Hblank & _).
  split; [|split; [|reflexivity]].
  - apply (Hentry " Brown Rice ,,EGG"). vm_compute. tauto.
  - apply Hblank. intros c Hc. vm_compute in Hc.
    repeat (destruct Hc as [<- | Hc]; [vm_compute; tauto|]). contradiction.
Defined.

(** ** Ingredient extractor, continued *)

(** X2. The extracted pairs are trimmed on both sides; there are at most 20
    of them (and 20 for a meal that fills every slot); and only the keys of
    the slots 1 to 20 matter: meals that agree on them give the same list,
    whatever slot 0, slot 21 or any other key holds. *)
Theorem getIngredients_trimmed_bounded :
  (forall m l,
     In l (getIngredients m) ->
     trim (ingredient l) = ingredient l /\ trim (measure l) = measure l)
  /\ (forall m, (length (getIngredients m) <= 20)%nat)
  /\ (forall m m',
        (forall i, (1 <= i <= 20)%nat ->
           dyn m !! ingredientKey i = dyn m' !! ingredientKey i
           /\ dyn m !! measureKey i = dyn m' !! measureKey i) ->
        getIngredients m = getIngredients m')
  /\ length (getIngredients full_meal) = 20%nat.
Proof.
  split; [|split; [|split]].
  - intros m l. rewrite getIngredients_eq, in_map_iff.
    intros (i & <- & _). unfold slot_line. simpl. now rewrite !trim_idem.
  - intros m. rewrite getIngredients_eq, length_map.
    etransitivity; [apply filter_length_le|]. now rewrite length_seq.
  - intros m m' Hsame. rewrite !getIngredients_eq.
    rewrite (filter_ext_in (nonblank_slot m) (nonblank_slot m')).
    + apply map_ext_in. intros i Hi. apply filter_In in Hi as [Hi _].
      apply in_seq in Hi. destruct (Hsame i) as [Hing Hmeas]; [lia|].
      unfold slot_line. now rewrite Hing, Hmeas.
    + intros i Hi. apply in_seq in Hi.
      destruct (Hsame i) as [Hing _]; [lia|].
      unfold nonblank_slot. now rewrite Hing.
  - vm_compute. reflexivity.
Qed.

Lemma getIngredients_trimmed_bounded_witness :
  getIngredients sparse_meal
  = getIngredients (meal_of "7" (Some "Side") None None
                      [("strIngredient0", "Zero"); ("strIngredient1", " Rice ");
                       ("strIngredient2", "   "); ("strIngredient3", "");
                       ("strIngredient5", "Salt"); ("strMeasure5", " 1 tsp ");
                       ("strMeasure22", "1 cup")])
  /\ trim "1 tsp" = "1 tsp".
Proof.
  destruct getIngredients_trimmed_bounded as (Htrim & _ & Hsame & _). split.
  - apply Hsame. intros i Hi.
    assert (Hcases : In i (seq 1 20)) by (apply in_seq; lia).
    vm_compute in Hcases.
    repeat (destruct Hcases as [<- | Hcases]; [split; reflexivity|]).
    contradiction.
  - apply (Htrim sparse_meal {| ingredient := "Salt"; measure := "1 tsp" |}).
    vm_compute. tauto.
Defined.

(** ** Tag chips *)

(** X3. A card shows at most three tag chips; each is a non-empty piece of
    the tag string without a comma, and its trimmed form is one of the tags
    the mood filter looks at; a meal without a tag string shows none. *)
Theorem card_tags_bounded :
  (forall m, (length (card_tags m) <= 3)%nat)
  /\ (forall m t,
        In t (card_tags m) ->
        t <> "" /\ ~ In ","%char (code_units t) /\ In (trim t) (meal_tags m))
  /\ (forall m, strTags m = None -> card_tags m = []).
Proof.
  split; [|split].
  - intros m. apply take_length_le.
  - intros m t Ht. unfold card_tags in Ht. apply take_In in Ht.
    apply filter_In in Ht as [Ht Hne]. split; [now apply truthy_iff|]. split.
    + intros Hc.
      destruct (proj1 (split_comma_units (default "" (strTags m)) ","%char)
                  (ex_intro _ t (conj Ht Hc))) as [_ Hne'].
      now apply Hne'.
    + unfold meal_tags. apply in_map. exact Ht.
  - intros m Hm. unfold card_tags. now rewrite Hm.
Qed.

Lemma card_tags_bounded_witness :
  card_tags full_meal = ["Spicy"; " Quick "; "Easy"]
  /\ In (trim " Quick ") (meal_tags full_meal).
Proof.
  split; [reflexivity|].
  apply (proj1 (proj2 card_tags_bounded) full_meal " Quick ").
  vm_compute. tauto.
Defined.

(** ** Time buckets *)

Lemma estimate_le_iff (m : MealDetails) (k : Z) :
  (5 <= k < 180)%Z ->
  (estimateMinutes m <= k)%Z
  <-> (Z.of_nat (words_of m) + 8 * Z.of_nat (ingredient_count m) <= 4 * k + 1)%Z.
Proof.
  intros Hk. rewrite estimateMinutes_eq, clamped_estimate_int.
  unfold words_of, ingredient_count.
  set (x := (Z.of_nat _ + 8 * Z.of_nat _)%Z).
  Z.div_mod_to_equations. lia.
Qed.

Lemma estimate_ge_iff (m : MealDetails) (k : Z) :
  (5 < k <= 180)%Z ->
  (k <= estimateMinutes m)%Z
  <-> (4 * k - 2 <= Z.of_nat (words_of m) + 8 * Z.of_nat (ingredient_count m))%Z.
Proof.
  intros Hk. rewrite estimateMinutes_eq, clamped_estimate_int.
  unfold words_of, ingredient_count.
  set (x := (Z.of_nat _ + 8 * Z.of_nat _)%Z).
  Z.div_mod_to_equations. lia.
Qed.

(** X4. The time buckets in terms of the size [s = words + 8 * ingredients]
    of a meal: Under 15, 30 and 45 accept it exactly up to 61, 121 and 181,
    and 60+ from 238 on.  The Under buckets are nested, none overlaps 60+,
    and a meal of size 182 to 237 (estimate 46 to 59) passes no bucket but
    Any; a meal with fewer than 78 instruction words never passes 60+. *)
Theorem matchesTime_thresholds (m : MealDetails) :
  let s := (words_of m + 8 * ingredient_count m)%nat in
  matchesTime m TimeAny = true
  /\ (matchesTime m Under15 = true <-> (s <= 61)%nat)
  /\ (matchesTime m Under30 = true <-> (s <= 121)%nat)
  /\ (matchesTime m Under45 = true <-> (s <= 181)%nat)
  /\ (matchesTime m SixtyPlus = true <-> (238 <= s)%nat)
  /\ (matchesTime m Under15 = true -> matchesTime m Under30 = true)
  /\ (matchesTime m Under30 = true -> matchesTime m Under45 = true)
  /\ (matchesTime m Under45 = true -> matchesTime m SixtyPlus = false)
  /\ ((182 <= s <= 237)%nat ->
      forall t, matchesTime m t = true -> t = TimeAny)
  /\ ((words_of m < 78)%nat -> matchesTime m SixtyPlus = false).
Proof.
  intros s.
  assert (H15 : matchesTime m Under15 = true <-> (s <= 61)%nat).
  { unfold matchesTime. rewrite Z.leb_le, estimate_le_iff by lia.
    unfold s. lia. }
  assert (H30 : matchesTime m Under30 = true <-> (s <= 121)%nat).
  { unfold matchesTime. rewrite Z.leb_le, estimate_le_iff by lia.
    unfold s. lia. }
  assert (H45 : matchesTime m Under45 = true <-> (s <= 181)%nat).
  { unfold matchesTime. rewrite Z.leb_le, estimate_le_iff by lia.
    unfold s. lia. }
  assert (H60 : matchesTime m SixtyPlus = true <-> (238 <= s)%nat).
  { unfold matchesTime. rewrite Z.leb_le, estimate_ge_iff by lia.
    unfold s. lia. }
  assert (Hn : (ingredient_count m <= 20)%nat).
  { unfold ingredient_count. rewrite getIngredients_eq, length_map.
    etransitivity; [apply filter_length_le|]. now rewrite length_seq. }
  split; [reflexivity|]. do 4 (split; [assumption|]).
  split; [rewrite H15, H30; lia|]. split; [rewrite H30, H45; lia|].
  split; [|split].
  - rewrite H45, <- not_true_iff_false, H60. lia.
  - intros Hs [] Ht; try reflexivity; exfalso.
    + apply H15 in Ht. lia.
    + apply H30 in Ht. lia.
    + apply H45 in Ht. lia.
    + apply H60 in Ht. lia.
  - intros Hw. rewrite <- not_true_iff_false, H60. unfold s. lia.
Qed.

Lemma matchesTime_thresholds_witness :
  matchesTime long_meal Under15 = true
  /\ matchesTime long_meal Under45 = true
  /\ matchesTime long_meal SixtyPlus = false.
Proof.
  destruct (matchesTime_thresholds long_meal)
    as (_ & H15 & _ & _ & _ & H1530 & H3045 & _ & _ & Hshort).
  split; [apply H15; vm_compute; lia|].
  split; [apply H3045, H1530, H15; vm_compute; lia|].
  apply Hshort. vm_compute. lia.
Defined.

(** ** Diet and exclusion filters, continued *)

Lemma is_substring_empty (s : string) : is_substring "" s.
Proof. exists "", s. reflexivity. Qed.

(** X5. Diet None accepts every meal.  Vegetarian (and likewise Vegan)
    accepts a meal exactly when its lowercased tag string contains the word
    or its lowercased category is the word, whatever its ingredients; a meal
    with neither tags nor category is rejected by both; a meal without
    ingredients is gluten-free. *)
Theorem matchesDiet_cases :
  (forall m, matchesDiet m DietNone = true)
  /\ (forall m,
        matchesDiet m Vegetarian = true
        <-> is_substring "vegetarian" (toLowerCase (default "" (strTags m)))
            \/ toLowerCase (default "" (strCategory m)) = "vegetarian")
  /\ (forall m,
        matchesDiet m Vegan = true
        <-> is_substring "vegan" (toLowerCase (default "" (strTags m)))
            \/ toLowerCase (default "" (strCategory m)) = "vegan")
  /\ (forall m,
        strTags m = None -> strCategory m = None ->
        matchesDiet m Vegetarian = false /\ matchesDiet m Vegan = false)
  /\ (forall m, getIngredients m = [] -> matchesDiet m GlutenFree = true)
  /\ (forall m m' d,
        d <> GlutenFree ->
        strTags m = strTags m' -> strCategory m = strCategory m' ->
        matchesDiet m d = matchesDiet m' d).
Proof.
  split; [reflexivity|]. split; [|split; [|split; [|split]]].
  - intros m. unfold matchesDiet. cbv zeta.
    now rewrite orb_true_iff, includes_iff, String.eqb_eq.
  - intros m. unfold matchesDiet. cbv zeta.
    now rewrite orb_true_iff, includes_iff, String.eqb_eq.
  - intros m Ht Hc. unfold matchesDiet. rewrite Ht, Hc. split; reflexivity.
  - intros m Hm. apply matchesDiet_gluten_iff. intros g i _ Hi.
    rewrite Hm in Hi. destruct Hi.
  - intros m m' d Hd Ht Hc. unfold matchesDiet. rewrite Ht, Hc.
    destruct d; try reflexivity. contradiction.
Qed.

Lemma matchesDiet_cases_witness :
  matchesDiet full_meal Vegetarian = true
  /\ matchesDiet plain_dessert Vegan = false
  /\ matchesDiet (meal_of "8" None None None []) GlutenFree = true
  /\ matchesDiet (wheat_loaf (Some "VEGAN") None) Vegan
     = matchesDiet (meal_of "9" (Some "VEGAN") None None
                      [("strIngredient1", "Beef")]) Vegan.
Proof.
  destruct matchesDiet_cases as (_ & Hveg & Hvegan & _ & Hgf & Hing).
  split; [|split; [|split]].
  - apply Hveg. right. reflexivity.
  - apply not_true_iff_false. rewrite Hvegan. intros [Hs | Hc].
    + apply includes_iff in Hs. vm_compute in Hs. discriminate.
    + vm_compute in Hc. discriminate.
  - apply Hgf. reflexivity.
  - apply Hing; [discriminate | reflexivity | reflexivity].
Defined.

(** X6. Exclusion lists compose: a meal passes the concatenation of two
    lists exactly when it passes both, so a longer list never lets more
    through, and the order of the terms is irrelevant.  An empty term occurs
    in every name: a list holding it rejects every meal that has an
    ingredient. *)
Theorem excludeIngredients_compose :
  (forall m a b,
     excludeIngredients m (a ++ b)
     = excludeIngredients m a && excludeIngredients m b)
  /\ (forall m a b,
        (forall ex, In ex a -> In ex b) ->
        excludeIngredients m b = true -> excludeIngredients m a = true)
  /\ (forall m a b,
        Permutation a b -> excludeIngredients m a = excludeIngredients m b)
  /\ (forall m excludes,
        In "" excludes ->
        excludeIngredients m excludes = true <-> getIngredients m = []).
Proof.
  split; [|split; [|split]].
  - intros m a b. apply eq_true_iff_eq.
    rewrite andb_true_iff, !excludeIngredients_iff. split.
    + intros H. split; intros ex i Hex; apply H, in_or_app; tauto.
    + intros [Ha Hb] ex i Hex. apply in_app_or in Hex as [Hex | Hex]; auto.
  - intros m a b Hsub. rewrite !excludeIngredients_iff. intros Hb ex i Hex.
    apply Hb, Hsub, Hex.
  - intros m a b Hperm. apply eq_true_iff_eq.
    rewrite !excludeIngredients_iff. split; intros H ex i Hex; apply H.
    + eapply Permutation_in; [apply Permutation_sym|]; eassumption.
    + eapply Permutation_in; eassumption.
  - intros m excludes Hin. rewrite excludeIngredients_iff. split.
    + intros H. destruct (getIngredients m) as [|i l]; [reflexivity|].
      destruct (H "" i Hin (or_introl eq_refl)). apply is_substring_empty.
    + intros -> ex i _ [].
Qed.

Lemma excludeIngredients_compose_witness :
  excludeIngredients chicken_peanuts ["almond"] = true
  /\ excludeIngredients chicken_peanuts ["egg"; "almond"]
     = excludeIngredients chicken_peanuts ["almond"; "egg"]
  /\ (excludeIngredients (meal_of "8" None None None []) ["nut"; ""] = true
      <-> getIngredients (meal_of "8" None None None []) = []).
Proof.
  destruct excludeIngredients_compose as (_ & Hsub & Hperm & Hempty).
  split; [|split].
  - apply (Hsub _ ["almond"] ["almond"; "egg"]); [|reflexivity].
    intros ex [<- | []]. now left.
  - apply Hperm, perm_swap.
  - apply Hempty. simpl. tauto.
Defined.

(** ** Mood filter, continued *)

(** X7. Mood Any accepts every meal.  For a mood, appending a further tag to
    the tag string never loses a match.  For Healthy and Adventurous, a meal
    without a tag string matches exactly when its category is, to the letter,
    one of the configured categories. *)
Theorem matchesMood_tags_monotone :
  (forall m, matchesMood m MoodAny = true)
  /\ (forall m m' k extra,
        strCategory m' = strCategory m ->
        strTags m' = Some (default "" (strTags m) +:+ String "," extra) ->
        matchesMood m (Mood k) = true -> matchesMood m' (Mood k) = true)
  /\ (forall m k,
        k = Healthy \/ k = Adventurous -> strTags m = None ->
        matchesMood m (Mood k) = true
        <-> In (default "" (strCategory m)) (mood_categories k)).
Proof.
  split; [reflexivity|]. split.
  - intros m m' k extra Hcat Htags. unfold matchesMood. rewrite Hcat.
    assert (Hmore : forall x, In x (meal_tags m) -> In x (meal_tags m')).
    { intros x Hx. unfold meal_tags in *. rewrite Htags. simpl default.
      rewrite split_comma_app, map_app. apply in_or_app. now left. }
    destruct (categories (MOOD_MAP k)) as [cs|]; [|auto].
    destruct (tagsContains (MOOD_MAP k)) as [ts|]; [|auto].
    rewrite !orb_true_iff, !some_includes_iff.
    intros [Hc | (x & t & Hx & Ht & Hs)]; [now left|].
    right. exists x, t. auto.
  - intros m k Hk Hnone.
    rewrite (matchesMood_both_configured m k (mood_categories k)
               (mood_tag_substrings k))
      by (destruct Hk as [-> | ->]; reflexivity).
    unfold mood_policy, meal_tags. rewrite Hnone. simpl.
    split; [|tauto]. intros [Hc | (tag & t & [<- | []] & Ht & Hs)]; [exact Hc|].
    apply includes_iff in Hs.
    destruct Hk as [-> | ->]; vm_compute in Ht;
      repeat (destruct Ht as [<- | Ht]; [vm_compute in Hs; discriminate|]);
      contradiction.
Qed.

Lemma matchesMood_tags_monotone_witness :
  matchesMood (meal_of "10" (Some "Dessert") (Some "Sweet,Spicy,Mild") None [])
    (Mood Adventurous) = true
  /\ (matchesMood plain_dessert (Mood Healthy) = true
      <-> In (default "" (strCategory plain_dessert)) (mood_categories Healthy)).
Proof.
  destruct matchesMood_tags_monotone as (_ & Hmore & Hcat). split.
  - apply (Hmore (meal_of "10" (Some "Dessert") (Some "Sweet,Spicy") None [])
             _ Adventurous "Mild"); reflexivity.
  - apply Hcat; [now left | reflexivity].
Defined.

(** ** Joining promises *)

Lemma Promise_all_Resolved {A : Type} (ps : list (Outcome A)) (l : list A) :
  Promise_all ps = Resolved l <-> ps = map Resolved l.
Proof.
  revert l; induction ps as [|[a|msg] ps IH]; intros l; simpl.
  - destruct l; simpl; split; congruence.
  - destruct (Promise_all ps) as [l'|msg].
    + split.
      * intros [= <-]. simpl. f_equal. now apply IH.
      * destruct l as [|b l]; simpl; [discriminate|].
        intros [= -> Hps]. f_equal. f_equal.
        apply IH in Hps. congruence.
    + split; [discriminate|]. destruct l as [|b l]; simpl; [discriminate|].
      intros [= -> Hps]. apply IH in Hps. discriminate.
  - split; [discriminate|]. destruct l; simpl; discriminate.
Qed.

Lemma Promise_all_map_In {A B : Type} (g : A -> Outcome B) (xs : list A)
    (l : list B) :
  Promise_all (map g xs) = Resolved l ->
  length l = length xs
  /\ (forall x, In x xs -> exists y, g x = Resolved y /\ In y l)
  /\ (forall y, In y l -> exists x, In x xs /\ g x = Resolved y).
Proof.
  intros H. apply Promise_all_Resolved in H. split; [|split].
  - apply (f_equal (@length _)) in H. now rewrite !length_map in H.
  - intros x Hx. apply (in_map g) in Hx. rewrite H in Hx.
    apply in_map_iff in Hx as (y & Hy & Hin). eauto.
  - intros y Hy. apply (in_map Resolved) in Hy. rewrite <- H in Hy.
    apply in_map_iff in Hy as (x & Hx & Hin). eauto.
Qed.

(** ** Search orchestrator, continued *)

Lemma truthy_error_text (msg : string) : truthy (error_text msg) = true.
Proof. unfold error_text. destruct msg; reflexivity. Qed.

Lemma detail_queries_app (a b : list Event) :
  detail_queries (a ++ b) = detail_queries a ++ detail_queries b.
Proof. apply omap_app. Qed.

Lemma detail_queries_map (l : list string) :
  detail_queries (map DetailQuery l) = l.
Proof. induction l as [|x l IH]; simpl; [reflexivity|]. now f_equal. Qed.

Lemma detail_queries_filters (l : list string) :
  detail_queries (map FilterQuery l) = [].
Proof. induction l as [|x l IH]; simpl; [reflexivity | exact IH]. Qed.

Lemma detail_queries_onSearch (net : Network) (f : Form) :
  detail_queries (onSearch net f)
  = match Promise_all (map (API.filterByIngredient net)
                         (parsedIngredients f)) with
    | Rejected _ => []
    | Resolved lists => take 24 (candidate_ids lists)
    end.
Proof.
  remember (Promise_all (map (API.filterByIngredient net)
                          (parsedIngredients f))) as P eqn:HP.
  unfold onSearch, search_candidates. rewrite <- HP.
  rewrite !detail_queries_app.
  change (detail_queries [SetLoading true; SetError None; SetMeals [];
                          SetExpanded ∅]) with (@nil string).
  change (detail_queries [SetLoading false]) with (@nil string).
  rewrite app_nil_r, app_nil_l.
  destruct (parsedIngredients f) as [|p ps] eqn:Hp; [now subst P|].
  clear HP. rewrite detail_queries_app, detail_queries_filters, app_nil_l.
  destruct P as [lists|msg]; [|reflexivity].
  destruct (candidate_ids lists) as [|i ids]; [reflexivity|].
  unfold search_details, selected_ids.
  rewrite detail_queries_app, detail_queries_map.
  destruct (Promise_all (map (API.detailsById net) _)); apply app_nil_r.
Qed.

Lemma take_NoDup {A : Type} (n : nat) (l : list A) :
  List.NoDup l -> List.NoDup (take n l).
Proof.
  revert l; induction n as [|n IH]; intros [|x l] H; simpl; try constructor.
  - inversion H as [|? ? Hx Hl]; subst. intros Hin. apply Hx.
    eapply take_In, Hin.
  - inversion H; subst. now apply IH.
Qed.

Lemma candidate_ids_NoDup (lists : list (list MealSummary)) :
  List.NoDup (candidate_ids lists).
Proof.
  unfold candidate_ids, intersect_all.
  destruct (idSets_of lists) as [|s sets]; simpl; [constructor|].
  destruct (intersect_loop sets (new_Set s) (new_Set_NoDup s))
    as (r & -> & Hnd & _).
  exact Hnd.
Qed.

Lemma List_filter_sublist {A : Type} (f : A -> bool) (l : list A) :
  sublist (List.filter f l) l.
Proof.
  induction l as [|x l IH]; simpl; [constructor|].
  destruct (f x); now constructor.
Qed.

Lemma intersect_loop_sublist (sets : list (list string)) (acc : list string) :
  List.NoDup acc ->
  exists r, foldl intersect_step (Some acc) sets = Some r /\ sublist r acc.
Proof.
  revert acc; induction sets as [|s sets IH]; intros acc Hacc; simpl.
  - exists acc. split; reflexivity.
  - pose proof (filter_has_NoDup s acc Hacc) as Hf.
    rewrite (new_Set_id _ Hf). destruct (IH _ Hf) as (r & -> & Hsub).
    exists r. split; [reflexivity|].
    etransitivity; [exact Hsub | apply List_filter_sublist].
Qed.

Lemma candidate_ids_sublist (l : list MealSummary)
    (lists : list (list MealSummary)) :
  sublist (candidate_ids (l :: lists)) (new_Set (map s_idMeal l)).
Proof.
  unfold candidate_ids, intersect_all. simpl.
  rewrite (new_Set_id _ (new_Set_NoDup _)).
  destruct (intersect_loop_sublist (idSets_of lists) _
              (new_Set_NoDup (map s_idMeal l))) as (r & -> & Hsub).
  exact Hsub.
Qed.

(** X8. The detail lookups of a search: none unless every candidate query
    succeeded; then exactly the first 24 candidate IDs, in the order in which
    the first ingredient's result lists them; never more than 24, never the
    same ID twice, and only IDs that every candidate query returned. *)
Theorem detail_lookups_of_search :
  (forall net f,
     detail_queries (onSearch net f)
     = match Promise_all (map (API.filterByIngredient net)
                            (parsedIngredients f)) with
       | Rejected _ => []
       | Resolved lists => take 24 (candidate_ids lists)
       end)
  /\ (forall net f,
        List.NoDup (detail_queries (onSearch net f))
        /\ (length (detail_queries (onSearch net f)) <= 24)%nat)
  /\ (forall net f id ing,
        In id (detail_queries (onSearch net f)) ->
        In ing (parsedIngredients f) ->
        exists l, API.filterByIngredient net ing = Resolved l
                  /\ In id (map s_idMeal l))
  /\ (forall net f l lists,
        Promise_all (map (API.filterByIngredient net) (parsedIngredients f))
        = Resolved (l :: lists) ->
        sublist (detail_queries (onSearch net f)) (new_Set (map s_idMeal l))).
Proof.
  split; [exact detail_queries_onSearch|]. split; [|split].
  - intros net f. rewrite detail_queries_onSearch.
    destruct (Promise_all _) as [lists|msg].
    + split; [apply take_NoDup, candidate_ids_NoDup | apply take_length_le].
    + split; [constructor | simpl; lia].
  - intros net f i ing Hi Hing. rewrite detail_queries_onSearch in Hi.
    destruct (Promise_all _) as [lists|msg] eqn:Hall; [|destruct Hi].
    apply Promise_all_map_In in Hall as (_ & Hres & _).
    destruct (Hres ing Hing) as (l & Hl & Hin). exists l. split; [exact Hl|].
    apply take_In, candidate_ids_In in Hi as [_ Hi]. now apply Hi.
  - intros net f l lists Hall. rewrite detail_queries_onSearch, Hall.
    etransitivity; [apply sublist_take | apply candidate_ids_sublist].
Qed.

Lemma detail_lookups_of_search_witness :
  detail_queries (onSearch ordered_net (form_of "rice, egg" "")) = ["3"; "1"; "2"]
  /\ (exists l, API.filterByIngredient ordered_net "egg" = Resolved l
                /\ In "2" (map s_idMeal l))
  /\ sublist (detail_queries (onSearch ordered_net (form_of "rice, egg" "")))
       (new_Set (map s_idMeal [summary "3"; summary "1"; summary "2"])).
Proof.
  destruct detail_lookups_of_search as (_ & _ & Hall & Hord).
  split; [reflexivity|]. split.
  - apply (Hall ordered_net (form_of "rice, egg" "")); vm_compute; tauto.
  - apply (Hord ordered_net (form_of "rice, egg" "") _
             [[summary "1"; summary "2"; summary "3"; summary "1"]]).
    reflexivity.
Defined.

Lemma omap_id_In {A : Type} (l : list (option A)) (x : A) :
  In x (omap id l) <-> In (Some x) l.
Proof.
  induction l as [|[y|] l IH]; simpl; [tauto | |].
  - unfold id at 1. simpl. rewrite IH. split; intros [H | H]; auto; left; congruence.
  - rewrite IH. split; [auto | intros [H | H]; [discriminate | exact H]].
Qed.

Lemma omap_id_length {A : Type} (l : list (option A)) :
  (length (omap id l) <= length l)%nat.
Proof.
  induction l as [|[y|] l IH]; [simpl; lia | |].
  - change (omap id (Some y :: l)) with (y :: omap id l). simpl. lia.
  - change (omap id (None :: l)) with (omap id l). simpl. lia.
Qed.

(** The final state of every search, whatever the service does. *)
Lemma after_search_settled (net : Network) (f : Form) (st : UiState) :
  exists e ms,
    after_search net f st = settled e ms
    /\ (e = None \/ ms = [])
    /\ (forall msg, e = Some msg -> truthy msg = true)
    /\ (length ms <= 24)%nat
    /\ (forall m, In m ms ->
          passes_filters f m = true
          /\ exists id, In id (detail_queries (onSearch net f))
                        /\ API.detailsById net id = Resolved (Some m)).
Proof.
  rewrite after_search_eq, detail_queries_onSearch.
  remember (Promise_all (map (API.filterByIngredient net)
                          (parsedIngredients f))) as P eqn:HP.
  assert (Hbad : forall msg (Q : MealDetails -> Prop),
            truthy msg = true ->
            exists e ms,
              settled (Some msg) [] = settled e ms
              /\ (e = None \/ ms = [])
              /\ (forall msg', e = Some msg' -> truthy msg' = true)
              /\ (length ms <= 24)%nat
              /\ (forall m, In m ms -> Q m)).
  { intros msg Q Hmsg. exists (Some msg), []. split; [reflexivity|].
    split; [now right|]. split; [intros msg' [= <-]; exact Hmsg|].
    split; [simpl; lia | intros m []]. }
  destruct (parsedIngredients f) as [|p ps]; [now apply Hbad|]. clear HP.
  destruct P as [lists|msg]; [|apply Hbad, truthy_error_text].
  destruct (candidate_ids lists) as [|i ids] eqn:Hids.
  - exists None, []. split; [reflexivity|]. split; [now left|].
    split; [discriminate|]. split; [simpl; lia | intros m []].
  - unfold selected_ids.
    destruct (Promise_all (map (API.detailsById net) _)) as [fetched|msg]
      eqn:Hall; [|apply Hbad, truthy_error_text].
    apply Promise_all_map_In in Hall as (Hlen & _ & Hfrom).
    exists None, (List.filter (passes_filters f) (omap id fetched)).
    split; [reflexivity|]. split; [now left|]. split; [discriminate|]. split.
    + etransitivity; [apply filter_length_le|].
      etransitivity; [apply omap_id_length|]. rewrite Hlen.
      apply take_length_le.
    + intros m Hm. apply filter_In in Hm as [Hm Hp]. split; [exact Hp|].
      apply omap_id_In in Hm. destruct (Hfrom _ Hm) as (x & Hx & Hd). eauto.
Qed.

(** X9. Whatever the service answers, the results of a search are sound and
    capped: there are at most 24 of them, each one passes the time, mood,
    diet and exclusion filters of the form, and each one is the answer to
    one of the detail lookups that the search issued. *)
Theorem search_results_sound (net : Network) (f : Form) (st : UiState) :
  (length (meals (after_search net f st)) <= 24)%nat
  /\ forall m,
       In m (meals (after_search net f st)) ->
       (matchesTime m (time f) = true /\ matchesMood m (mood f) = true
        /\ matchesDiet m (diet f) = true
        /\ excludeIngredients m (parsedExcludes f) = true)
       /\ exists id, In id (detail_queries (onSearch net f))
                     /\ API.detailsById net id = Resolved (Some m).
Proof.
  destruct (after_search_settled net f st)
    as (e & ms & -> & _ & _ & Hlen & Hsound).
  split; [exact Hlen|]. intros m Hm.
  destruct (Hsound m Hm) as [Hp Hid]. split; [|exact Hid].
  now apply passes_filters_iff.
Qed.

Lemma search_results_sound_witness :
  matchesTime chicken_peanuts Under15 = true
  /\ excludeIngredients chicken_peanuts ["egg"] = true.
Proof.
  destruct (search_results_sound steady_net
              {| ingredientsInput := "Chicken"; excludeInput := "Egg";
                 time := Under15; mood := Mood Comforting; diet := DietNone |}
              idle) as [_ Hsound].
  destruct (Hsound chicken_peanuts) as [(Ht & _ & _ & Hex) _].
  - vm_compute. tauto.
  - split; [exact Ht | exact Hex].
Defined.

(** X10. A search run from any state, with no other event in between,
    leaves the component in a state that does not depend on the state it
    started from: not loading, so that the submit button is enabled again,
    and with an empty expanded map.  In the program order of the handler,
    every request is preceded by the four clearing calls and, apart from
    them, by requests only: no state is set between the clearing calls and
    the last request. *)
Theorem search_state_invariants :
  (forall net f st st', after_search net f st = after_search net f st')
  /\ (forall net f st,
        loading (after_search net f st) = false
        /\ submit_disabled (after_search net f st) = false
        /\ expanded (after_search net f st) = ∅)
  /\ (forall net f before e after,
        onSearch net f = before ++ e :: after -> is_request e = true ->
        exists reqs,
          before = clearing ++ reqs
          /\ List.Forall (fun x => is_request x = true) reqs).
Proof.
  split; [|split].
  - intros net f st st'. now rewrite !after_search_eq.
  - intros net f st.
    destruct (after_search_settled net f st) as (e & ms & -> & _).
    repeat split.
  - intros net f before e after Heq He.
    destruct (onSearch_shape net f) as (reqs & post & Hshape & Hreqs & Hpost).
    rewrite Hshape in Heq.
    apply (before_request clearing reqs post before after e);
      auto; repeat constructor.
Qed.

Lemma search_state_invariants_witness :
  exists reqs,
    [SetLoading true; SetError None; SetMeals []; SetExpanded ∅;
     FilterQuery "rice"; FilterQuery "egg"; DetailQuery "3"]
    = clearing ++ reqs
    /\ List.Forall (fun x => is_request x = true) reqs.
Proof.
  destruct search_state_invariants as (_ & _ & Hreq).
  apply (Hreq ordered_net (form_of "rice, egg" "")
           _ (DetailQuery "1")
           [DetailQuery "2"; SetMeals []; SetLoading false]);
    reflexivity.
Defined.

(** X11. HTTP error statuses are fatal for candidate queries and harmless for
    detail lookups.  If some candidate query is answered with an error status
    and every other one is answered too (with an error status or a decodable
    body), the search ends with the message "Network error fetching meals",
    no results and no detail lookup.  If the candidate queries succeed and
    every detail lookup is answered with an error status, the search ends
    without an error and without results. *)
Theorem http_status_handling :
  (forall net f st,
     (exists ing res, In ing (parsedIngredients f)
                      /\ fetch_filter net ing = Resolved res /\ ok res = false) ->
     (forall ing, In ing (parsedIngredients f) ->
        exists res, fetch_filter net ing = Resolved res
                    /\ (ok res = false \/ exists d, json_meals res = Resolved d)) ->
     error (after_search net f st) = Some "Network error fetching meals"
     /\ meals (after_search net f st) = []
     /\ detail_queries (onSearch net f) = [])
  /\ (forall net f st lists,
        parsedIngredients f <> [] ->
        Promise_all (map (API.filterByIngredient net) (parsedIngredients f))
        = Resolved lists ->
        (forall id, In id (take 24 (candidate_ids lists)) ->
           exists res, fetch_lookup net id = Resolved res /\ ok res = false) ->
        error (after_search net f st) = None
        /\ meals (after_search net f st) = []
        /\ detail_queries (onSearch net f) = take 24 (candidate_ids lists)).
Proof.
  split.
  - intros net f st (ing & res & Hing & Hres & Hok) Hall.
    assert (Hrej : exists msg,
              Promise_all (map (API.filterByIngredient net)
                             (parsedIngredients f)) = Rejected msg).
    { apply (Promise_all_some_Rejected _ "Network error fetching meals").
      apply in_map_iff. exists ing. split; [|exact Hing].
      unfold API.filterByIngredient. now rewrite Hres, Hok. }
    destruct Hrej as [msg Hrej].
    assert (Hmsg : msg = "Network error fetching meals").
    { apply Promise_all_Rejected, in_map_iff in Hrej as (x & Hx & Hin).
      destruct (Hall x Hin) as (r & Hr & Hcase).
      unfold API.filterByIngredient in Hx. rewrite Hr in Hx.
      destruct (ok r); simpl in Hx; [|congruence].
      destruct Hcase as [? | [d Hd]]; [discriminate|].
      rewrite Hd in Hx. discriminate. }
    subst msg. rewrite after_search_eq, detail_queries_onSearch, Hrej.
    destruct (parsedIngredients f); [destruct Hing|]. repeat split.
  - intros net f st lists Hne Hlists Hdown.
    rewrite after_search_eq, detail_queries_onSearch, Hlists.
    assert (Hnone : Promise_all (map (API.detailsById net)
                                   (take 24 (candidate_ids lists)))
                    = Resolved (map (fun _ => None)
                                  (take 24 (candidate_ids lists)))).
    { apply Promise_all_map. intros i Hi. destruct (Hdown i Hi) as (r & Hr & Hok).
      unfold API.detailsById. now rewrite Hr, Hok. }
    assert (Hdrop : forall l : list string,
              omap id (map (fun _ => @None MealDetails) l) = [])
      by (induction l; auto).
    destruct (parsedIngredients f); [contradiction|].
    unfold selected_ids.
    destruct (candidate_ids lists) as [|i ids] eqn:Hids; [repeat split|].
    rewrite Hnone, Hdrop. repeat split.
Qed.

Lemma http_status_handling_witness :
  (error (after_search down_net (form_of "rice, egg" "") idle)
   = Some "Network error fetching meals"
   /\ meals (after_search down_net (form_of "rice, egg" "") idle) = []
   /\ detail_queries (onSearch down_net (form_of "rice, egg" "")) = [])
  /\ (error (after_search ordered_net (form_of "rice, egg" "") idle) = None
      /\ meals (after_search ordered_net (form_of "rice, egg" "") idle) = []
      /\ detail_queries (onSearch ordered_net (form_of "rice, egg" ""))
         = ["3"; "1"; "2"]).
Proof.
  destruct http_status_handling as [Hfatal Hsoft]. split.
  - apply Hfatal.
    + exists "rice". eexists. split; [vm_compute; tauto|]. split; reflexivity.
    + intros ing _. eexists. split; [reflexivity|]. now left.
  - apply (Hsoft ordered_net (form_of "rice, egg" "") idle
             [[summary "3"; summary "1"; summary "2"];
              [summary "1"; summary "2"; summary "3"; summary "1"]]).
    + discriminate.
    + reflexivity.
    + intros i _. eexists. split; reflexivity.
Defined.

(** ** Repeated ingredients *)

Lemma intersect_loop_absorb (sets : list (list string)) (acc : list string) :
  List.NoDup acc ->
  (forall s x, In s sets -> In x acc -> In x s) ->
  foldl intersect_step (Some acc) sets = Some acc.
Proof.
  intros Hacc. induction sets as [|s sets IH]; intros Hall; simpl; [reflexivity|].
  rewrite filter_all_true.
  - rewrite (new_Set_id _ Hacc). apply IH. intros s' x Hs'. apply Hall. now right.
  - intros x Hx. apply Set_has_In. apply (Hall s x); [now left | exact Hx].
Qed.

Lemma candidate_ids_absorb (lists extra : list (list MealSummary)) :
  lists <> [] -> (forall l, In l extra -> In l lists) ->
  candidate_ids (lists ++ extra) = candidate_ids lists.
Proof.
  intros Hne Hextra. unfold candidate_ids, idSets_of, intersect_all.
  rewrite map_app, foldl_app.
  destruct lists as [|l lists]; [contradiction|]. simpl.
  destruct (intersect_loop
              (map (fun l0 => new_Set (map s_idMeal l0)) lists)
              (new_Set (new_Set (map s_idMeal l))) (new_Set_NoDup _))
    as (r & Hr & Hnd & Hin).
  rewrite Hr. rewrite intersect_loop_absorb; [reflexivity | exact Hnd |].
  intros s x (l' & <- & Hl')%in_map_iff Hx. apply Hin in Hx as [Hx Hall].
  destruct (Hextra l' Hl') as [<- | Hl].
  - now rewrite new_Set_In in Hx.
  - apply Hall, in_map_iff. eauto.
Qed.

(** X12. Entering an ingredient again changes nothing in the outcome: when
    the service answers a repeated query as it answered the first one, a form
    whose parsed ingredients are those of another form followed by
    repetitions of some of them issues the same detail lookups, ends with the
    same results, and ends with an error exactly when the other does.  (The
    message of the error is that of whichever rejection wins, and is not
    compared.) *)
Theorem repeated_ingredients_harmless (net : Network) (f : Form)
    (input : string) (dup : list string) (st : UiState) :
  parsedIngredients (with_ingredients f input) = parsedIngredients f ++ dup ->
  (forall x, In x dup -> In x (parsedIngredients f)) ->
  meals (after_search net (with_ingredients f input) st)
  = meals (after_search net f st)
  /\ (error (after_search net (with_ingredients f input) st) = None
      <-> error (after_search net f st) = None)
  /\ detail_queries (onSearch net (with_ingredients f input))
     = detail_queries (onSearch net f).
Proof.
  intros Hparsed Hdup.
  rewrite !after_search_eq, !detail_queries_onSearch, Hparsed.
  change (passes_filters (with_ingredients f input)) with (passes_filters f).
  destruct (parsedIngredients f) as [|p ps] eqn:Hp.
  - destruct dup as [|d dup]; [|destruct (Hdup d); now left].
    split; [reflexivity|]. split; [tauto | reflexivity].
  - remember (p :: ps) as q eqn:Hq.
    assert (Hq' : exists p' ps', q ++ dup = p' :: ps')
      by (subst q; simpl; eauto).
    destruct Hq' as (p' & ps' & Hq').
    destruct (Promise_all (map (API.filterByIngredient net) q))
      as [lists|msg] eqn:Hall.
    + pose proof Hall as Hmap. apply Promise_all_Resolved in Hmap.
      apply Promise_all_map_In in Hall as (Hlen & Hres & _).
      assert (Hextra : exists extra,
                map (API.filterByIngredient net) dup = map Resolved extra
                /\ forall l, In l extra -> In l lists).
      { clear Hparsed Hq'. induction dup as [|d dup IH].
        - exists []. split; [reflexivity | intros l []].
        - destruct IH as (extra & Hx & Hin);
            [intros x Hx; apply Hdup; now right|].
          destruct (Hres d) as (l & Hl & Hlin); [apply Hdup; now left|].
          exists (l :: extra). simpl. rewrite Hl, Hx. split; [reflexivity|].
          intros l' [<- | Hl']; auto. }
      destruct Hextra as (extra & Hdupmap & Hin).
      assert (Hboth : Promise_all (map (API.filterByIngredient net) (q ++ dup))
                      = Resolved (lists ++ extra)).
      { apply Promise_all_Resolved. now rewrite !map_app, Hmap, Hdupmap. }
      rewrite Hboth, Hq'. rewrite candidate_ids_absorb; [| |exact Hin].
      * subst q. split; [reflexivity|]. split; [tauto | reflexivity].
      * subst q. destruct lists; discriminate.
    + assert (Hboth : exists msg',
                Promise_all (map (API.filterByIngredient net) (q ++ dup))
                = Rejected msg').
      { apply (Promise_all_some_Rejected _ msg). rewrite map_app.
        apply in_or_app. left. now apply Promise_all_Rejected. }
      destruct Hboth as [msg' ->]. rewrite Hq'. subst q.
      split; [reflexivity|]. split; [split; discriminate | reflexivity].
Qed.

Lemma repeated_ingredients_harmless_witness :
  meals (after_search steady_net
           (form_of "Chicken, rice,chicken ,RICE" "almond") idle)
  = meals (after_search steady_net (form_of "chicken,rice" "almond") idle)
  /\ (error (after_search down_net (form_of "rice,rice" "") idle) = None
      <-> error (after_search down_net (form_of "rice" "") idle) = None).
Proof.
  split.
  - apply (repeated_ingredients_harmless steady_net
             (form_of "chicken,rice" "almond")
             "Chicken, rice,chicken ,RICE" ["chicken"; "rice"] idle).
    + reflexivity.
    + intros x Hx. vm_compute. vm_compute in Hx. tauto.
  - apply (repeated_ingredients_harmless down_net (form_of "rice" "")
             "rice,rice" ["rice"] idle).
    + reflexivity.
    + intros x Hx. vm_compute. vm_compute in Hx. tauto.
Defined.

(** ** Presentation *)

(** X13. Expanding and collapsing cards, the expanded state being a plain
    object: a click flips the card of that meal ID and leaves every other
    card, the results, the error and the loading flag alone; two clicks on
    one card restore what is shown; clicks on different cards commute.
    After a search a card is open exactly when its meal ID names a truthy
    inherited member of the empty object; with the standard prototype every
    card whose ID is not one of its twelve keys, such as a numeric ID, is
    collapsed, whereas a card with the ID "constructor" shows as open. *)
Theorem toggle_expanded_laws :
  (forall inh s id,
     isOpen inh (toggle_expanded inh id s) id = negb (isOpen inh s id))
  /\ (forall inh s id id',
        id <> id' -> isOpen inh (toggle_expanded inh id s) id' = isOpen inh s id')
  /\ (forall inh s id x,
        isOpen inh (toggle_expanded inh id (toggle_expanded inh id s)) x
        = isOpen inh s x)
  /\ (forall inh s a b,
        a <> b ->
        toggle_expanded inh a (toggle_expanded inh b s)
        = toggle_expanded inh b (toggle_expanded inh a s))
  /\ (forall inh id st,
        meals (onToggle inh id st) = meals st
        /\ error (onToggle inh id st) = error st
        /\ loading (onToggle inh id st) = loading st)
  /\ (forall inh net f st x,
        isOpen inh (expanded (after_search net f st)) x = inh x)
  /\ (forall net f st x,
        ~ In x Object_prototype_keys ->
        isOpen Object_prototype_has (expanded (after_search net f st)) x = false)
  /\ (forall net f st,
        isOpen Object_prototype_has (expanded (after_search net f st))
          "constructor" = true).
Proof.
  assert (Hflip : forall inh s id,
            isOpen inh (toggle_expanded inh id s) id = negb (isOpen inh s id)).
  { intros inh s id. unfold toggle_expanded.
    unfold isOpen at 1. now rewrite lookup_insert_eq. }
  assert (Hother : forall inh s id id',
            id <> id' ->
            isOpen inh (toggle_expanded inh id s) id' = isOpen inh s id').
  { intros inh s id id' Hne. unfold toggle_expanded.
    unfold isOpen at 1 3. now rewrite lookup_insert_ne. }
  assert (Hafter : forall inh net f st x,
            isOpen inh (expanded (after_search net f st)) x = inh x).
  { intros inh net f st x.
    destruct (after_search_settled net f st) as (e & ms & -> & _).
    reflexivity. }
  split; [exact Hflip|]. split; [exact Hother|].
  split; [|split; [|split; [|split; [|split]]]].
  - intros inh s id x. destruct (decide (id = x)) as [<- | Hne].
    + rewrite !Hflip. apply negb_involutive.
    + now rewrite !Hother.
  - intros inh s a b Hne. unfold toggle_expanded.
    assert (Ha : isOpen inh (<[b := negb (isOpen inh s b)]> s) a = isOpen inh s a)
      by (apply (Hother inh s b a); congruence).
    assert (Hb : isOpen inh (<[a := negb (isOpen inh s a)]> s) b = isOpen inh s b)
      by (apply (Hother inh s a b); congruence).
    unfold toggle_expanded in Ha, Hb. rewrite Ha, Hb.
    now apply insert_insert_ne.
  - intros inh id st. repeat split.
  - exact Hafter.
  - intros net f st x Hx. rewrite Hafter. apply not_true_iff_false.
    unfold Object_prototype_has. now rewrite array_includes_In.
  - intros net f st. now rewrite Hafter.
Qed.

Lemma toggle_expanded_laws_witness :
  isOpen Object_prototype_has
    (toggle_expanded Object_prototype_has "2" (expanded idle)) "1" = true
  /\ toggle_expanded Object_prototype_has "1"
       (toggle_expanded Object_prototype_has "2" ∅)
     = toggle_expanded Object_prototype_has "2"
         (toggle_expanded Object_prototype_has "1" ∅)
  /\ isOpen Object_prototype_has
       (expanded (after_search steady_net (form_of "rice" "") idle)) "52772"
     = false.
Proof.
  destruct toggle_expanded_laws as (_ & Hother & _ & Hcomm & _ & _ & Hnum & _).
  split; [|split].
  - rewrite Hother; [reflexivity | discriminate].
  - apply Hcomm. discriminate.
  - apply Hnum. vm_compute. intuition discriminate.
Defined.

(** X14. What is shown when a search has finished: exactly one of the error
    banner, the "No results yet" line and a non-empty grid of cards.  The
    banner shows exactly when the search ended with an error, whose message
    is never empty, and then no card is shown. *)
Theorem search_outcome_shown (net : Network) (f : Form) (st : UiState) :
  let s := after_search net f st in
  ((shows_error s = true /\ shows_empty_hint s = false /\ meals s = [])
   \/ (shows_error s = false /\ shows_empty_hint s = true /\ meals s = [])
   \/ (shows_error s = false /\ shows_empty_hint s = false /\ meals s <> []))
  /\ (shows_error s = true <-> error s <> None)
  /\ (forall msg, error s = Some msg -> msg <> "").
Proof.
  intros s. unfold s.
  destruct (after_search_settled net f st)
    as (e & ms & -> & Hcase & Hmsg & _).
  unfold shows_empty_hint, shows_error. simpl.
  destruct e as [msg|].
  - pose proof (Hmsg msg eq_refl) as Ht. rewrite Ht.
    destruct Hcase as [? | ->]; [discriminate|].
    split; [left; repeat split|]. split; [split; congruence|].
    intros msg' [= <-]. now apply truthy_iff.
  - split.
    + destruct ms; [right; left | right; right]; repeat split. discriminate.
    + split; [split; congruence | discriminate].
Qed.

Lemma search_outcome_shown_witness :
  shows_error (after_search down_net (form_of "rice" "") idle) = true
  /\ shows_empty_hint (after_search steady_net (form_of "rice" "nut") idle) = true
  /\ shows_empty_hint (after_search steady_net (form_of "rice" "") idle) = false.
Proof.
  split; [|split; reflexivity].
  apply (proj1 (proj2 (search_outcome_shown down_net (form_of "rice" "") idle))).
  vm_compute. discriminate.
Defined.
